(** * Closet Monkey RFID reader: a shallow embedding of
      [hardware/rfid_reader.py] and the properties of its polling loop.

    The Python class [RFIDReader] owns one piece of mutable state
    ([last_tags]) and talks to three collaborators: the tag hardware
    ([read_tags]), the HTTP client ([requests.post]) and the clock
    ([datetime.now], [time.sleep]).  The embedding threads the reader
    object through a small state/exception/trace monad; everything the
    outside world answers during one turn of the loop is collected in a
    record [world]. *)

From Stdlib Require Import Ascii String.
From stdpp Require Import base decidable option list strings pretty gmap.

Open Scope string_scope.

(** ** Exceptions and their classes *)

(** The exceptions the handlers of the program tell apart.  [HTTPError],
    [ConnectionError], [Timeout], ... are all subclasses of
    [requests.exceptions.RequestException]; [OtherException] stands for any
    other subclass of [Exception]; [KeyboardInterrupt] derives from
    [BaseException] only, and [OtherBaseException] stands for the other
    exceptions that do so ([SystemExit], [GeneratorExit]). *)
Inductive exn : Type :=
  | KeyboardInterrupt
  | RequestException (msg : string)
  | OtherException (msg : string)
  | OtherBaseException (msg : string).

(** The classes named in [except] clauses. *)
Inductive exn_class : Type :=
  | KeyboardInterrupt_cls
  | Exception_cls
  | RequestException_cls.

Definition isinstance (e : exn) (c : exn_class) : bool :=
  match c, e with
  | KeyboardInterrupt_cls, KeyboardInterrupt => true
  | Exception_cls, (RequestException _ | OtherException _) => true
  | RequestException_cls, RequestException _ => true
  | _, _ => false
  end.

(** [str(e)], as interpolated by the f-strings of the log messages. *)
Definition str (e : exn) : string :=
  match e with
  | KeyboardInterrupt => ""
  | RequestException msg | OtherException msg | OtherBaseException msg => msg
  end.

Inductive result (A : Type) : Type :=
  | Ok (a : A)
  | Raise (e : exn).
Arguments Ok {A} a.
Arguments Raise {A} e.

(** ** Observable actions *)

Inductive level : Type := INFO | ERROR.

(** The JSON values the program serialises: strings and lists of strings. *)
Inductive json : Type :=
  | JString (s : string)
  | JArray (l : list string).

(** The arguments of one call [requests.post(url, json=data)]; [data] is the
    dict literal of [send_to_api], kept in insertion order. *)
Record request : Type := mk_request {
  req_url : string;
  req_json : list (string * json)
}.

Inductive action : Type :=
  | Log (lv : level) (msg : string)
  | Post (r : request)
  | Sleep (secs : nat).

(** ** The reader object *)

Record RFIDReader : Type := mk_reader {
  api_url : string;
  last_tags : gset string
}.

(** [__init__(self, api_url)] *)
Definition init (url : string) : RFIDReader :=
  {| api_url := url; last_tags := ∅ |}.

(** the default argument of [__init__] *)
Definition default_api_url : string := "http://localhost:3001/api".

(** ** The monad: reader state, exceptions, trace of actions *)

Definition M (A : Type) : Type :=
  RFIDReader → result A * RFIDReader * list action.

Definition ret {A} (a : A) : M A := λ self, (Ok a, self, []).

Definition bind {A B} (m : M A) (k : A → M B) : M B :=
  λ self,
    match m self with
    | (Ok a, self1, t1) =>
        match k a self1 with
        | (r, self2, t2) => (r, self2, (t1 ++ t2)%list)
        end
    | (Raise e, self1, t1) => (Raise e, self1, t1)
    end.

Definition raise {A} (e : exn) : M A := λ self, (Raise e, self, []).
Definition lift {A} (r : result A) : M A := λ self, (r, self, []).
Definition get_self : M RFIDReader := λ self, (Ok self, self, []).
Definition set_last_tags (tags : gset string) : M unit :=
  λ self, (Ok tt, {| api_url := api_url self; last_tags := tags |}, []).
Definition emit (a : action) : M unit := λ self, (Ok tt, self, [a]).

Declare Scope py_scope.
Delimit Scope py_scope with py.
Notation "'let*' x ':=' m 'in' k" := (bind m (λ x, k))
  (at level 10, x name, m at level 100, k at level 200) : py_scope.
Notation "m ;; k" := (bind m (λ _, k))
  (at level 100, k at level 200, right associativity) : py_scope.
Open Scope py_scope.

(** [try: body except c1: h1 except c2 as e: h2 ...]: the first clause whose
    class matches handles the exception; an exception raised inside a handler
    is not looked up in the clauses again. *)
Fixpoint find_handler {A} (e : exn) (hs : list (exn_class * (exn → M A)))
  : option (M A) :=
  match hs with
  | [] => None
  | (c, h) :: hs' => if isinstance e c then Some (h e) else find_handler e hs'
  end.

Definition try_except {A} (body : M A) (hs : list (exn_class * (exn → M A)))
  : M A :=
  λ self,
    match body self with
    | (Ok a, self1, t1) => (Ok a, self1, t1)
    | (Raise e, self1, t1) =>
        match find_handler e hs with
        | Some h =>
            match h self1 with
            | (r, self2, t2) => (r, self2, (t1 ++ t2)%list)
            end
        | None => (Raise e, self1, t1)
        end
    end.

(** ** The classifier *)

(** [detect_departure_arrival(self, current_tags)].  Truthiness of a set is
    non-emptiness, [!=] is set inequality, [len] is cardinality
    ([len(current_tags) > len(self.last_tags)] is written with [<], sides
    swapped); [None] is the result of the bare [return None]. *)
Definition detect_departure_arrival (self : RFIDReader)
    (current_tags : gset string) : option string :=
  if bool_decide (last_tags self = ∅) && bool_decide (current_tags ≠ ∅)
  then Some "departure"
  else if bool_decide (last_tags self ≠ ∅) && bool_decide (current_tags = ∅)
  then Some "arrival"
  else if bool_decide (current_tags ≠ last_tags self)
  then Some (if bool_decide (size (last_tags self) < size current_tags)%nat
             then "departure" else "arrival")
  else None.

(** The classifier policy in the words of the design document: four rules,
    each one applying only when the earlier ones do not. *)
Inductive classify (lastTags currentTags : gset string)
  : option string → Prop :=
  | classify_first_sighting :
      lastTags = ∅ → currentTags ≠ ∅ →
      classify lastTags currentTags (Some "departure")
  | classify_all_gone :
      ¬ (lastTags = ∅ ∧ currentTags ≠ ∅) →
      lastTags ≠ ∅ → currentTags = ∅ →
      classify lastTags currentTags (Some "arrival")
  | classify_changed_more :
      ¬ (lastTags = ∅ ∧ currentTags ≠ ∅) →
      ¬ (lastTags ≠ ∅ ∧ currentTags = ∅) →
      lastTags ≠ currentTags →
      (size currentTags > size lastTags)%nat →
      classify lastTags currentTags (Some "departure")
  | classify_changed_not_more :
      ¬ (lastTags = ∅ ∧ currentTags ≠ ∅) →
      ¬ (lastTags ≠ ∅ ∧ currentTags = ∅) →
      lastTags ≠ currentTags →
      ¬ (size currentTags > size lastTags)%nat →
      classify lastTags currentTags (Some "arrival")
  | classify_same :
      ¬ (lastTags = ∅ ∧ currentTags ≠ ∅) →
      ¬ (lastTags ≠ ∅ ∧ currentTags = ∅) →
      lastTags = currentTags →
      classify lastTags currentTags None.

(** ** The collaborators *)

(** A naive [datetime] value, as [datetime.now()] returns it. *)
Record datetime : Type := mk_datetime {
  year : nat; month : nat; day : nat;
  hour : nat; minute : nat; second : nat; microsecond : nat
}.

(** A [requests.Response], as far as the program and [raise_for_status] look
    at it. *)
Record response : Type := mk_response {
  status_code : Z;
  reason : string;
  (** [Response.url]: the address the response came from *)
  response_url : string
}.

(** What the outside world answers during one turn of the loop. *)
Record world : Type := mk_world {
  (** what a hardware-backed [read_tags] yields in this turn *)
  rfid : result (list string);
  (** the reading of the clock when the event record is built *)
  now : datetime;
  (** how the call of [requests.post] ends: a response, or an exception *)
  http : result response;
  (** whether Ctrl-C arrives while the turn is in [time.sleep] *)
  sigint : bool;
  (** the order in which [list(tags)] enumerates a set in this turn: it
      depends on the hash seed of the process and on how the set was built,
      and is only known to list every element once *)
  listing : gset string → list string;
  listing_enum : ∀ X, listing X ≡ₚ elements X
}.

(** [logging.info], [logging.error] *)
Definition logging_info (msg : string) : M unit := emit (Log INFO msg).
Definition logging_error (msg : string) : M unit := emit (Log ERROR msg).

(** [time.sleep(secs)]: blocks, and is where an interrupt surfaces as
    [KeyboardInterrupt]. *)
Definition time_sleep (w : world) (secs : nat) : M unit :=
  emit (Sleep secs) ;;
  if sigint w then raise KeyboardInterrupt else ret tt.

(** [requests.post(url, json=data)]: the call is made, then the world
    answers. *)
Definition requests_post (w : world) (url : string)
    (data : list (string * json)) : M response :=
  emit (Post {| req_url := url; req_json := data |}) ;;
  lift (http w).

(** [Response.raise_for_status] of the [requests] library: [HTTPError] (a
    [RequestException]) for a status in 400..599, nothing otherwise. *)
Definition raise_for_status (r : response) : M unit :=
  if bool_decide (400 ≤ status_code r < 500)%Z then
    raise (RequestException
             (pretty (status_code r) +:+ " Client Error: " +:+ reason r
                +:+ " for url: " +:+ response_url r))
  else if bool_decide (500 ≤ status_code r < 600)%Z then
    raise (RequestException
             (pretty (status_code r) +:+ " Server Error: " +:+ reason r
                +:+ " for url: " +:+ response_url r))
  else ret tt.

(** The decimal digit of the units of [n], as a character. *)
Definition digit (n : nat) : ascii :=
  ascii_of_nat (48 + n mod 10).

(** [n] printed on [width] decimal digits, as [%04d], [%02d] and [%06d] print
    the fields of a datetime (each of which fits its width). *)
Fixpoint zero_padded (width n : nat) : string :=
  match width with
  | O => ""
  | S width' => zero_padded width' (n / 10) +:+ String (digit n) ""
  end.

(** [datetime.isoformat] of a naive datetime: [YYYY-MM-DDTHH:MM:SS],
    followed by [.ffffff] when the microsecond is not 0. *)
Definition isoformat (d : datetime) : string :=
  zero_padded 4 (year d) +:+ "-" +:+ zero_padded 2 (month d) +:+ "-"
    +:+ zero_padded 2 (day d) +:+ "T" +:+ zero_padded 2 (hour d) +:+ ":"
    +:+ zero_padded 2 (minute d) +:+ ":" +:+ zero_padded 2 (second d)
    +:+ (if bool_decide (microsecond d = 0%nat) then ""
         else "." +:+ zero_padded 6 (microsecond d)).

(** The shipped [read_tags]: a placeholder that returns the empty list
    whatever the hardware sees. *)
Definition read_tags (w : world) : result (list string) := Ok [].

(** A [read_tags] that is backed by the hardware. *)
Definition read_tags_hw (w : world) : result (list string) := rfid w.

(** ** The dispatcher and the loop *)

(** [send_to_api(self, tags, event_type)] *)
Definition send_to_api (w : world) (tags : gset string) (event_type : string)
  : M unit :=
  try_except
    (let data :=
       [ ("tags", JArray (listing w tags));
         ("event_type", JString event_type);
         ("timestamp", JString (isoformat (now w)));
         ("location", JString "main_door") ] in
     let* self := get_self in
     let* response :=
       requests_post w (api_url self +:+ "/rfid/event") data in
     raise_for_status response ;;
     logging_info ("Sent " +:+ event_type +:+ " event with "
                     +:+ pretty (size tags) +:+ " tags"))
    [ (RequestException_cls,
       λ e, logging_error ("Failed to send API request: " +:+ str e)) ].

(** How one turn of [while True] ends. *)
Inductive control : Type := Next | Break.

(** How far [run] has got after a finite number of turns: still inside
    [while True], or out of the loop through [break]. *)
Inductive progress : Type := Polling | Returned.

Section Loop.

(** The method [read_tags] is the hook a deployment overrides; the loop is
    written against whatever it is bound to. *)
Variable driver : world → result (list string).

(** The body of the [try] in [run]. *)
Definition run_body (w : world) : M unit :=
  let* tags := lift (driver w) in
  let current_tags : gset string := list_to_set tags in
  let* self := get_self in
  let event_type := detect_departure_arrival self current_tags in
  match event_type with
  | None => ret tt
  | Some ev =>
      (* [if event_type:] is false for [None] and for the empty string *)
      if bool_decide (ev = "") then ret tt
      else
        send_to_api w current_tags ev ;;
        set_last_tags current_tags
  end ;;
  time_sleep w 1.

(** One turn of the loop: the [try] statement with its two clauses. *)
Definition cycle (w : world) : M control :=
  try_except
    (run_body w ;; ret Next)
    [ (KeyboardInterrupt_cls,
       λ _, logging_info "RFID reader stopped by user" ;; ret Break);
      (Exception_cls,
       λ e, logging_error ("Error in RFID reader: " +:+ str e) ;;
            time_sleep w 5 ;;
            ret Next) ].

(** [while True: ...], one [world] per turn. *)
Fixpoint loop (ws : list world) : M progress :=
  match ws with
  | [] => ret Polling
  | w :: ws' =>
      let* c := cycle w in
      match c with
      | Next => loop ws'
      | Break => ret Returned
      end
  end.

(** [run(self)] *)
Definition run (ws : list world) : M progress :=
  logging_info "Starting RFID reader..." ;;
  loop ws.

End Loop.

(** ** Vocabulary for reading traces and outcomes *)

(** The HTTP requests issued in a trace, oldest first. *)
Definition posts (t : list action) : list request :=
  omap (λ a, match a with Post r => Some r | _ => None end) t.

(** The messages logged at level ERROR in a trace. *)
Definition errors (t : list action) : list string :=
  omap (λ a, match a with Log ERROR msg => Some msg | _ => None end) t.

(** The messages logged at level INFO in a trace. *)
Definition infos (t : list action) : list string :=
  omap (λ a, match a with Log INFO msg => Some msg | _ => None end) t.

(** The durations of the sleeps of a trace. *)
Definition sleeps (t : list action) : list nat :=
  omap (λ a, match a with Sleep n => Some n | _ => None end) t.

(** [data[key]] on a JSON body. *)
Fixpoint json_field (key : string) (data : list (string * json))
  : option json :=
  match data with
  | [] => None
  | (k, v) :: data' =>
      if bool_decide (k = key) then Some v else json_field key data'
  end.

(** The tag set an event record carries. *)
Definition tags_of (r : request) : gset string :=
  match json_field "tags" (req_json r) with
  | Some (JArray l) => list_to_set l
  | _ => ∅
  end.

(** The tag set of the most recent request of a trace, [∅] when no request
    was issued. *)
Definition latest_posted (t : list action) : gset string :=
  match last (posts t) with
  | Some r => tags_of r
  | None => ∅
  end.

(** The ways the HTTP exchange itself can end: some response, or a failure
    of the transport reported as a [RequestException]. *)
Definition http_outcome (o : result response) : Prop :=
  match o with
  | Ok _ | Raise (RequestException _) => True
  | Raise _ => False
  end.

Definition is_2xx (r : response) : Prop := (200 ≤ status_code r < 300)%Z.

(** The exchanges that end in the [except RequestException] clause of
    [send_to_api]. *)
Definition dispatch_failed (o : result response) : Prop :=
  match o with
  | Ok r => (400 ≤ status_code r < 600)%Z
  | Raise (RequestException _) => True
  | Raise _ => False
  end.

(** A turn in which Ctrl-C is delivered, under the driver [driver]. *)
Definition interrupted (driver : world → result (list string)) (w : world)
  : Prop :=
  sigint w = true ∨ driver w = Raise KeyboardInterrupt
  ∨ http w = Raise KeyboardInterrupt.

(** The exceptions neither clause of the [try] of [run] applies to. *)
Definition uncaught (e : exn) : Prop :=
  isinstance e KeyboardInterrupt_cls = false
  ∧ isinstance e Exception_cls = false.

(** A turn in which the tag source or the HTTP client raises such an
    exception. *)
Definition raises_uncaught (driver : world → result (list string))
    (w : world) : Prop :=
  ∃ e, uncaught e ∧ (driver w = Raise e ∨ http w = Raise e).

(** The lexical shape [YYYY-MM-DDTHH:MM:SS[.ffffff]] of an ISO-8601 combined
    date and time. *)
Definition is_digit (a : ascii) : Prop :=
  (48 ≤ nat_of_ascii a ≤ 57)%nat.

Definition digits (n : nat) (s : string) : Prop :=
  String.length s = n ∧ Forall is_digit (list_ascii_of_string s).

Definition iso8601 (s : string) : Prop :=
  ∃ Y M D h m sec frac,
    digits 4 Y ∧ digits 2 M ∧ digits 2 D ∧ digits 2 h ∧ digits 2 m
    ∧ digits 2 sec
    ∧ (frac = "" ∨ ∃ f, digits 6 f ∧ frac = "." +:+ f)
    ∧ s = Y +:+ "-" +:+ M +:+ "-" +:+ D +:+ "T" +:+ h +:+ ":" +:+ m
            +:+ ":" +:+ sec +:+ frac.

(** The event record [send_to_api] builds for [tags] and [event_type]. *)
Definition event_request (w : world) (self : RFIDReader)
    (tags : gset string) (event_type : string) : request :=
  {| req_url := api_url self +:+ "/rfid/event";
     req_json :=
       [ ("tags", JArray (listing w tags));
         ("event_type", JString event_type);
         ("timestamp", JString (isoformat (now w)));
         ("location", JString "main_door") ] |}.

(** ** Sample worlds *)

(** Two orders in which a set can be enumerated. *)
Definition elements_enum (X : gset string) : elements X ≡ₚ elements X :=
  Permutation_refl (elements X).

Definition reverse_enum (X : gset string)
  : reverse (elements X) ≡ₚ elements X :=
  reverse_Permutation (elements X).

(** Two tags in range; the backend cannot be reached. *)
Definition world_refused : world :=
  {| rfid := Ok ["A1"; "A2"];
     now := mk_datetime 2024 3 9 7 5 0 0;
     http := Raise (RequestException "Connection refused");
     sigint := false;
     listing := elements; listing_enum := elements_enum |}.

(** Two tags in range; the backend accepts the event. *)
Definition world_delivered : world :=
  {| rfid := Ok ["A1"; "A2"];
     now := mk_datetime 2024 3 9 7 5 0 1500;
     http := Ok {| status_code := 201; reason := "Created";
               response_url := "http://localhost:3001/api/rfid/event" |};
     sigint := false;
     listing := elements; listing_enum := elements_enum |}.

(** One tag in range; the backend answers 304. *)
Definition world_not_modified : world :=
  {| rfid := Ok ["A1"];
     now := mk_datetime 2024 3 9 7 5 0 0;
     http := Ok {| status_code := 304; reason := "Not Modified";
               response_url := "http://localhost:3001/api/rfid/event" |};
     sigint := false;
     listing := elements; listing_enum := elements_enum |}.

(** The tag source fails. *)
Definition world_broken : world :=
  {| rfid := Raise (OtherException "antenna not responding");
     now := mk_datetime 2024 3 9 7 5 1 0;
     http := Ok {| status_code := 200; reason := "OK";
               response_url := "http://localhost:3001/api/rfid/event" |};
     sigint := false;
     listing := elements; listing_enum := elements_enum |}.

(** The tag source fails and Ctrl-C arrives during the sleep that follows. *)
Definition world_cooldown_interrupted : world :=
  {| rfid := Raise (OtherException "antenna not responding");
     now := mk_datetime 2024 3 9 7 5 1 0;
     http := Ok {| status_code := 200; reason := "OK";
               response_url := "http://localhost:3001/api/rfid/event" |};
     sigint := true;
     listing := elements; listing_enum := elements_enum |}.

(** Nothing in range and Ctrl-C arrives during the sleep of the turn. *)
Definition world_sleep_interrupted : world :=
  {| rfid := Ok [];
     now := mk_datetime 2024 3 9 7 5 2 0;
     http := Ok {| status_code := 200; reason := "OK";
               response_url := "http://localhost:3001/api/rfid/event" |};
     sigint := true;
     listing := elements; listing_enum := elements_enum |}.

(** Nothing in range; the backend accepts the event. *)
Definition world_empty_delivered : world :=
  {| rfid := Ok [];
     now := mk_datetime 2024 3 9 7 5 2 0;
     http := Ok {| status_code := 200; reason := "OK";
               response_url := "http://localhost:3001/api/rfid/event" |};
     sigint := false;
     listing := elements; listing_enum := elements_enum |}.

(** One tag in range; the backend is down. *)
Definition world_unavailable : world :=
  {| rfid := Ok ["A1"];
     now := mk_datetime 2024 3 9 7 5 3 0;
     http := Ok {| status_code := 503; reason := "Service Unavailable";
               response_url := "http://localhost:3001/api/rfid/event" |};
     sigint := false;
     listing := elements; listing_enum := elements_enum |}.

(** ** More vocabulary *)

(** The label an event record carries. *)
Definition event_type_of (r : request) : option string :=
  match json_field "event_type" (req_json r) with
  | Some (JString s) => Some s
  | _ => None
  end.

(** The tag sets of the requests of a trace, oldest first. *)
Definition posted_tags (t : list action) : list (gset string) :=
  tags_of <$> posts t.

(** Every set of the list differs from the one before it, [prev] standing
    before the first. *)
Fixpoint changing (prev : gset string) (l : list (gset string)) : Prop :=
  match l with
  | [] => True
  | X :: l' => X ≠ prev ∧ changing X l'
  end.

(** Two JSON values that differ at most in the order of a list. *)
Definition json_same (j1 j2 : json) : Prop :=
  match j1, j2 with
  | JString s1, JString s2 => s1 = s2
  | JArray l1, JArray l2 => l1 ≡ₚ l2
  | _, _ => False
  end.

(** Two requests to the same address whose bodies have the same fields in
    the same order, with values that differ at most in the order of a
    list. *)
Definition request_same (r1 r2 : request) : Prop :=
  req_url r1 = req_url r2
  ∧ Forall2 (λ f1 f2, f1.1 = f2.1 ∧ json_same f1.2 f2.2)
      (req_json r1) (req_json r2).

Definition action_same (a1 a2 : action) : Prop :=
  match a1, a2 with
  | Post r1, Post r2 => request_same r1 r2
  | _, _ => a1 = a2
  end.

(** Two traces that differ at most in the order of the tags of the requests
    they post. *)
Definition trace_same (t1 t2 : list action) : Prop :=
  Forall2 action_same t1 t2.


(** Two tags in range; the HTTP client fails with an exception that is not a
    [RequestException]. *)
Definition world_client_crash : world :=
  {| rfid := Ok ["A1"; "A2"];
     now := mk_datetime 2024 3 9 7 5 4 0;
     http := Raise (OtherException "unexpected keyword argument");
     sigint := false;
     listing := elements; listing_enum := elements_enum |}.

(** As [world_delivered], with the two tags read in another order, one of
    them twice, and the set listed in another order. *)
Definition world_delivered_reordered : world :=
  {| rfid := Ok ["A2"; "A1"; "A2"];
     now := mk_datetime 2024 3 9 7 5 0 1500;
     http := Ok {| status_code := 201; reason := "Created";
               response_url := "http://localhost:3001/api/rfid/event" |};
     sigint := false;
     listing := λ X, reverse (elements X); listing_enum := reverse_enum |}.

(** The tag source ends the process with [sys.exit]. *)
Definition world_exit : world :=
  {| rfid := Raise (OtherBaseException "3");
     now := mk_datetime 2024 3 9 7 5 6 0;
     http := Ok {| status_code := 200; reason := "OK";
               response_url := "http://localhost:3001/api/rfid/event" |};
     sigint := false;
     listing := elements; listing_enum := elements_enum |}.

(** The same two tags, read in another order and one of them twice. *)
Definition world_reread : world :=
  {| rfid := Ok ["A2"; "A1"; "A2"];
     now := mk_datetime 2024 3 9 7 5 5 0;
     http := Ok {| status_code := 200; reason := "OK";
               response_url := "http://localhost:3001/api/rfid/event" |};
     sigint := false;
     listing := elements; listing_enum := elements_enum |}.

(** * Properties *)

(** ** The classifier *)

Lemma detect_departure_arrival_sound (self : RFIDReader) (cur : gset string) :
  classify (last_tags self) cur (detect_departure_arrival self cur).
Proof.
  unfold detect_departure_arrival.
  repeat case_bool_decide; simpl;
    first
      [ by apply classify_first_sighting
      | apply classify_all_gone; tauto
      | apply classify_changed_more; (tauto || congruence || lia)
      | apply classify_changed_not_more; (tauto || congruence || lia)
      | apply classify_same; (tauto || congruence)
      | exfalso; (tauto || congruence) ].
Qed.

Lemma classify_functional (L C : gset string) (r1 r2 : option string) :
  classify L C r1 → classify L C r2 → r1 = r2.
Proof.
  destruct 1; destruct 1; try reflexivity; try tauto; try lia; try congruence.
Qed.

(** C1. [detect_departure_arrival] is exactly the four-rule case analysis of
    the classifier policy: it returns [r] on [last_tags] and [current_tags]
    if and only if the rules, read top to bottom, give [r] (first sighting:
    departure; everything gone: arrival; otherwise unequal sets: departure
    when the current set is strictly larger and arrival when it is not;
    equal sets: no event). *)
Theorem detect_departure_arrival_is_classify
    (self : RFIDReader) (current_tags : gset string) (r : option string) :
  detect_departure_arrival self current_tags = r
  ↔ classify (last_tags self) current_tags r.
Proof.
  split.
  - intros <-. apply detect_departure_arrival_sound.
  - intros H. eapply classify_functional; [|exact H].
    apply detect_departure_arrival_sound.
Qed.

(** C8. Identity law: classifying a tag set against itself gives no event,
    the empty set included. *)
Theorem detect_departure_arrival_same (self : RFIDReader) :
  detect_departure_arrival self (last_tags self) = None.
Proof.
  eapply classify_functional; [apply detect_departure_arrival_sound|].
  apply classify_same; tauto.
Qed.

(** ** Evaluating the dispatcher *)

Lemma send_to_api_returns (w : world) (tags : gset string) (ev : string)
    (self : RFIDReader) :
  http_outcome (http w) →
  ∃ lv msg,
    send_to_api w tags ev self
      = (Ok tt, self, [Post (event_request w self tags ev); Log lv msg])
    ∧ (lv = ERROR ↔ dispatch_failed (http w))
    ∧ (lv = ERROR → ∃ m, msg = "Failed to send API request: " +:+ m)
    ∧ (lv = INFO →
       msg = "Sent " +:+ ev +:+ " event with " +:+ pretty (size tags)
               +:+ " tags")
    ∧ (∀ m, http w = Raise (RequestException m) →
            msg = "Failed to send API request: " +:+ m).
Proof.
  unfold send_to_api, try_except, bind, requests_post, raise_for_status,
    get_self, lift, emit, logging_info, logging_error, event_request.
  destruct (http w) as [r|[|m|m|m]] eqn:Hw; simpl; try done.
  - repeat case_bool_decide; simpl.
    + exists ERROR; eexists; split; [reflexivity|].
      split; [split; [lia|done]|]. split; [eauto|done].
    + exists ERROR; eexists; split; [reflexivity|].
      split; [split; [lia|done]|]. split; [eauto|done].
    + exists INFO; eexists; split; [reflexivity|].
      split; [split; [done|lia]|]. split; [done|done].
  - intros _. exists ERROR; eexists; split; [reflexivity|].
    split; [done|]. split; [eauto|]. split; [done|].
    by intros m' [= <-].
Qed.

Lemma send_to_api_propagates (w : world) (tags : gset string) (ev : string)
    (self : RFIDReader) (e : exn) :
  http w = Raise e → isinstance e RequestException_cls = false →
  send_to_api w tags ev self
    = (Raise e, self, [Post (event_request w self tags ev)]).
Proof.
  intros Hw He.
  unfold send_to_api, try_except, bind, requests_post, raise_for_status,
    get_self, lift, emit, logging_info, logging_error, event_request.
  rewrite Hw. simpl. destruct e; simpl in *; done.
Qed.

Lemma detect_departure_arrival_labels (self : RFIDReader)
    (cur : gset string) (ev : string) :
  detect_departure_arrival self cur = Some ev →
  ev = "departure" ∨ ev = "arrival".
Proof.
  unfold detect_departure_arrival.
  repeat case_bool_decide; simpl; intros [= <-]; auto.
Qed.

(** ** Evaluating one turn of the loop *)

Section Turn.

Variable driver : world → result (list string).

Lemma run_body_read_fails (w : world) (self : RFIDReader) (e : exn) :
  driver w = Raise e → run_body driver w self = (Raise e, self, []).
Proof. intros H. unfold run_body, bind, lift. by rewrite H. Qed.

Lemma run_body_no_event (w : world) (self : RFIDReader)
    (tags : list string) :
  driver w = Ok tags →
  detect_departure_arrival self (list_to_set tags) = None →
  run_body driver w self
    = (if sigint w then Raise KeyboardInterrupt else Ok tt, self, [Sleep 1]).
Proof.
  intros Hd Hc. unfold run_body, bind, lift, get_self. rewrite Hd. simpl.
  rewrite Hc. unfold time_sleep, bind, emit, ret, raise. simpl.
  by destruct (sigint w).
Qed.

Lemma run_body_event (w : world) (self : RFIDReader) (tags : list string)
    (ev : string) :
  driver w = Ok tags →
  detect_departure_arrival self (list_to_set tags) = Some ev →
  run_body driver w self
    = match send_to_api w (list_to_set tags) ev self with
      | (Ok _, self1, t1) =>
          (if sigint w then Raise KeyboardInterrupt else Ok tt,
           {| api_url := api_url self1; last_tags := list_to_set tags |},
           t1 ++ [Sleep 1])%list
      | (Raise e, self1, t1) => (Raise e, self1, t1)
      end.
Proof.
  intros Hd Hc. unfold run_body, bind at 1 2, lift, get_self.
  rewrite Hd. simpl. rewrite Hc.
  destruct (detect_departure_arrival_labels _ _ _ Hc) as [-> | ->];
    (rewrite bool_decide_eq_false_2 by done);
    unfold bind, set_last_tags, time_sleep, emit, ret, raise;
    destruct (send_to_api _ _ _ _) as [[[[]|e] self1] t1]; simpl;
    try done; destruct (sigint w); simpl; by rewrite ?app_nil_r.
Qed.

Lemma cycle_of_body (w : world) (self : RFIDReader) :
  cycle driver w self
    = match run_body driver w self with
      | (Ok _, self1, t1) => (Ok Next, self1, t1)
      | (Raise KeyboardInterrupt, self1, t1) =>
          (Ok Break, self1,
           t1 ++ [Log INFO "RFID reader stopped by user"])%list
      | (Raise (OtherBaseException msg), self1, t1) =>
          (Raise (OtherBaseException msg), self1, t1)
      | (Raise e, self1, t1) =>
          (if sigint w then Raise KeyboardInterrupt else Ok Next, self1,
           t1 ++ [Log ERROR ("Error in RFID reader: " +:+ str e);
                  Sleep 5])%list
      end.
Proof.
  unfold cycle, try_except, bind at 1.
  destruct (run_body driver w self) as [[[[]|e] self1] t1]; simpl.
  - by rewrite app_nil_r.
  - destruct e; simpl; try done;
      unfold bind, logging_error, time_sleep, emit, ret, raise; simpl;
      by destruct (sigint w).
Qed.

End Turn.

(** ** The timestamp *)

Lemma length_append (s1 s2 : string) :
  String.length (s1 +:+ s2) = (String.length s1 + String.length s2)%nat.
Proof. induction s1 as [|a s1 IH]; simpl; [done | by rewrite IH]. Qed.

Lemma list_ascii_of_string_append (s1 s2 : string) :
  list_ascii_of_string (s1 +:+ s2)
  = (list_ascii_of_string s1 ++ list_ascii_of_string s2)%list.
Proof. induction s1 as [|a s1 IH]; simpl; [done | by rewrite IH]. Qed.

Lemma digit_is_digit (n : nat) : is_digit (digit n).
Proof.
  unfold is_digit, digit.
  assert (n mod 10 < 10)%nat by (apply Nat.mod_upper_bound; lia).
  rewrite nat_ascii_embedding by lia. lia.
Qed.

Lemma digits_append (n m : nat) (s1 s2 : string) :
  digits n s1 → digits m s2 → digits (n + m) (s1 +:+ s2).
Proof.
  intros [L1 F1] [L2 F2]. split.
  - rewrite length_append. lia.
  - rewrite list_ascii_of_string_append. by apply Forall_app.
Qed.

Lemma zero_padded_digits (width n : nat) : digits width (zero_padded width n).
Proof.
  revert n. induction width as [|width IH]; intros n; simpl.
  - split; [done | constructor].
  - replace (S width) with (width + 1)%nat by lia.
    apply digits_append; [apply IH|].
    split; [done|]. simpl. constructor; [apply digit_is_digit | constructor].
Qed.

Lemma isoformat_iso8601 (d : datetime) : iso8601 (isoformat d).
Proof.
  unfold isoformat, iso8601.
  exists (zero_padded 4 (year d)), (zero_padded 2 (month d)),
    (zero_padded 2 (day d)), (zero_padded 2 (hour d)),
    (zero_padded 2 (minute d)), (zero_padded 2 (second d)).
  eexists. repeat (split; [apply zero_padded_digits|]).
  split; [|reflexivity].
  case_bool_decide; [by left | right].
  eexists. split; [apply zero_padded_digits | reflexivity].
Qed.

(** ** The dispatcher *)

(** C6, as the code has it.  Whatever the HTTP exchange gives (any response
    status, or a transport failure), [send_to_api] returns without raising
    and leaves the reader untouched.  The exchange counts as failed when the
    transport failed or the status lies in 400..599: then exactly one line
    "Failed to send API request: ..." is logged at level ERROR (with the
    message of the transport failure, when it is one) and nothing at level
    INFO.  Every other status is taken as delivered: the line "Sent ... event
    with ... tags" is logged at level INFO and nothing at level ERROR. *)
Theorem send_to_api_soft_failure (w : world) (tags : gset string)
    (event_type : string) (self : RFIDReader) :
  http_outcome (http w) →
  ∃ t,
    send_to_api w tags event_type self = (Ok tt, self, t)
    ∧ (dispatch_failed (http w) →
       (∃ m, errors t = ["Failed to send API request: " +:+ m])
       ∧ infos t = [])
    ∧ (∀ m, http w = Raise (RequestException m) →
            errors t = ["Failed to send API request: " +:+ m])
    ∧ (¬ dispatch_failed (http w) →
       errors t = []
       ∧ infos t = ["Sent " +:+ event_type +:+ " event with "
                      +:+ pretty (size tags) +:+ " tags"]).
Proof.
  intros Hw.
  destruct (send_to_api_returns w tags event_type self Hw)
    as (lv & msg & -> & Hlv & Herr & Hinfo & Hmsg).
  eexists; split; [reflexivity|]. split; [|split].
  - intros Hf. apply Hlv in Hf as ->. destruct (Herr eq_refl) as [m ->].
    split; [by exists m | done].
  - intros m Hm. assert (lv = ERROR) as ->.
    { apply Hlv. by rewrite Hm. }
    by rewrite (Hmsg m Hm).
  - intros Hf. destruct lv.
    + by rewrite (Hinfo eq_refl).
    + exfalso. by apply Hf, Hlv.
Qed.

Lemma send_to_api_soft_failure_witness :
  http_outcome (http world_refused)
  ∧ ∃ t,
      send_to_api world_refused {["A1"]} "departure" (init default_api_url)
        = (Ok tt, init default_api_url, t)
      ∧ (dispatch_failed (http world_refused) →
         (∃ m, errors t = ["Failed to send API request: " +:+ m])
         ∧ infos t = [])
      ∧ (∀ m, http world_refused = Raise (RequestException m) →
              errors t = ["Failed to send API request: " +:+ m])
      ∧ (¬ dispatch_failed (http world_refused) →
         errors t = []
         ∧ infos t = ["Sent " +:+ "departure" +:+ " event with "
                        +:+ pretty (size ({["A1"]} : gset string))
                        +:+ " tags"]).
Proof.
  split; [exact I|].
  apply (send_to_api_soft_failure world_refused {["A1"]} "departure"
           (init default_api_url)).
  exact I.
Defined.

(** C6, as stated, fails: a response that is not 2xx is not always treated
    as a failure.  Status 304 passes [raise_for_status]; the dispatcher logs
    "Sent ..." at level INFO and no error. *)
Lemma non_2xx_response_logged_as_sent :
  ¬ (∀ (w : world) (tags : gset string) (event_type : string)
       (self : RFIDReader) (r : response),
       http w = Ok r → ¬ is_2xx r →
       ∃ t, send_to_api w tags event_type self = (Ok tt, self, t)
            ∧ errors t ≠ []).
Proof.
  intros H.
  destruct (H world_not_modified {["A1"]} "departure" (init default_api_url)
              {| status_code := 304; reason := "Not Modified";
               response_url := "http://localhost:3001/api/rfid/event" |})
    as (t & Ht & Herr).
  - reflexivity.
  - unfold is_2xx. simpl. lia.
  - vm_compute in Ht. injection Ht as <-. by apply Herr.
Qed.

(** ** One turn of the loop *)

Section TurnLaws.

Variable driver : world → result (list string).

(** C2. State update law: in a turn that dispatches an event for the current
    tag set, whatever the HTTP exchange gives (a success, a status that is
    an error, a transport failure), [last_tags] is the current tag set after
    the turn; a failed dispatch leaves one error line in the log and nothing
    else: the turn ends through the normal one-second sleep, never the
    cooldown, and the loop goes on to its next turn (unless Ctrl-C arrives
    during that sleep). *)
Theorem state_update_law (w : world) (self : RFIDReader)
    (tags : list string) (event_type : string) :
  driver w = Ok tags →
  detect_departure_arrival self (list_to_set tags) = Some event_type →
  http_outcome (http w) →
  ∃ self' t,
    cycle driver w self = (Ok (if sigint w then Break else Next), self', t)
    ∧ last_tags self' = list_to_set tags
    ∧ api_url self' = api_url self
    ∧ posts t = [event_request w self (list_to_set tags) event_type]
    ∧ sleeps t = [1%nat]
    ∧ (dispatch_failed (http w) →
       ∃ m, errors t = ["Failed to send API request: " +:+ m]).
Proof.
  intros Hd Hc Hw.
  rewrite cycle_of_body, (run_body_event _ _ _ _ _ Hd Hc).
  destruct (send_to_api_returns w (list_to_set tags) event_type self Hw)
    as (lv & msg & -> & Hlv & Herr & _).
  destruct (sigint w); simpl; do 2 eexists;
    (split; [reflexivity|]); repeat (split; [by destruct lv|]);
    intros Hf; apply Hlv in Hf as ->; destruct (Herr eq_refl) as [m ->];
    by exists m.
Qed.

(** C4. No-event law: in a turn whose reading classifies to [None], the
    reader is left as it was and no HTTP request is issued. *)
Theorem no_event_law (w : world) (self : RFIDReader) (tags : list string) :
  driver w = Ok tags →
  detect_departure_arrival self (list_to_set tags) = None →
  ∃ r t, cycle driver w self = (r, self, t) ∧ posts t = [].
Proof.
  intros Hd Hc. rewrite cycle_of_body, (run_body_no_event _ _ _ _ Hd Hc).
  destruct (sigint w); do 2 eexists; (split; [reflexivity|done]).
Qed.

(** An exception of class [Exception] leaves the [try] body only from the
    read or from the dispatcher, before [last_tags] is assigned and before
    the one-second sleep. *)
Lemma run_body_raises (w : world) (self self1 : RFIDReader) (e : exn)
    (t1 : list action) :
  run_body driver w self = (Raise e, self1, t1) →
  isinstance e Exception_cls = true →
  self1 = self ∧ sleeps t1 = [].
Proof.
  intros Hb He. destruct (driver w) as [tags|e'] eqn:Hd.
  - destruct (detect_departure_arrival self (list_to_set tags)) as [ev|]
      eqn:Hc.
    + rewrite (run_body_event _ _ _ _ _ Hd Hc) in Hb.
      destruct (http w) as [r|e'] eqn:Hw.
      * destruct (send_to_api_returns w (list_to_set tags) ev self)
          as (lv & msg & Hs & _); [by rewrite Hw|].
        rewrite Hs in Hb. destruct (sigint w); by simplify_eq.
      * destruct (isinstance e' RequestException_cls) eqn:He'.
        -- destruct (send_to_api_returns w (list_to_set tags) ev self)
             as (lv & msg & Hs & _); [rewrite Hw; by destruct e'|].
           rewrite Hs in Hb. destruct (sigint w); by simplify_eq.
        -- rewrite (send_to_api_propagates _ _ _ _ _ Hw He') in Hb.
           by simplify_eq.
    + rewrite (run_body_no_event _ _ _ _ Hd Hc) in Hb.
      destruct (sigint w); by simplify_eq.
  - rewrite (run_body_read_fails _ _ _ _ Hd) in Hb. by simplify_eq.
Qed.

(** C5. Loop-level error atomicity: when an exception of class [Exception]
    reaches the loop level (from the read or from the dispatcher; failures
    of the HTTP exchange never do), the turn logs "Error in RFID reader: ..."
    at level ERROR, sleeps 5 seconds and not 1, and leaves the reader as it
    was before the turn; after that sleep the loop takes its next turn. *)
Theorem unexpected_error_cooldown (w : world) (self self1 : RFIDReader)
    (e : exn) (t1 : list action) :
  run_body driver w self = (Raise e, self1, t1) →
  isinstance e Exception_cls = true →
  ∃ r t,
    cycle driver w self = (r, self, t)
    ∧ (sigint w = false → r = Ok Next)
    ∧ errors t = (errors t1 ++ ["Error in RFID reader: " +:+ str e])%list
    ∧ sleeps t = [5%nat].
Proof.
  intros Hb He. destruct (run_body_raises _ _ _ _ _ Hb He) as [-> Hs].
  rewrite cycle_of_body, Hb.
  destruct e; try done; do 2 eexists; (split; [reflexivity|]);
    (split; [by intros ->|]); unfold errors, sleeps in *;
    rewrite !omap_app, ?Hs; done.
Qed.

(** C7. A turn that dispatches an event issues exactly one HTTP POST, to
    [api_url/rfid/event]; its JSON body has the four fields [tags],
    [event_type], [timestamp] and [location] and no other: [tags] lists the
    elements of the current tag set, each once; [event_type] is "departure"
    or "arrival"; [timestamp] has the shape of an ISO-8601 date and time;
    [location] is "main_door". *)
Theorem dispatched_event_record (w : world) (self : RFIDReader)
    (tags : list string) (event_type : string) :
  driver w = Ok tags →
  detect_departure_arrival self (list_to_set tags) = Some event_type →
  ∃ r self' t l ts,
    cycle driver w self = (r, self', t)
    ∧ posts t =
        [ {| req_url := api_url self +:+ "/rfid/event";
             req_json := [ ("tags", JArray l);
                           ("event_type", JString event_type);
                           ("timestamp", JString ts);
                           ("location", JString "main_door") ] |} ]
    ∧ NoDup l ∧ (∀ x, x ∈ l ↔ x ∈ tags)
    ∧ (event_type = "departure" ∨ event_type = "arrival")
    ∧ iso8601 ts.
Proof.
  intros Hd Hc.
  assert (∃ r self' t, cycle driver w self = (r, self', t)
            ∧ posts t = [event_request w self (list_to_set tags) event_type])
    as (r & self' & t & Hcy & Hp).
  { rewrite cycle_of_body, (run_body_event _ _ _ _ _ Hd Hc).
    destruct (http w) as [rs|e'] eqn:Hw.
    - destruct (send_to_api_returns w (list_to_set tags) event_type self)
        as (lv & msg & -> & _); [by rewrite Hw|].
      destruct (sigint w); do 3 eexists; (split; [reflexivity|]);
        by destruct lv.
    - destruct (isinstance e' RequestException_cls) eqn:He'.
      + destruct (send_to_api_returns w (list_to_set tags) event_type self)
          as (lv & msg & -> & _); [rewrite Hw; by destruct e'|].
        destruct (sigint w); do 3 eexists; (split; [reflexivity|]);
          by destruct lv.
      + rewrite (send_to_api_propagates _ _ _ _ _ Hw He').
        destruct e'; try done; destruct (sigint w);
          do 3 eexists; (split; [reflexivity|done]). }
  exists r, self', t, (listing w (list_to_set tags)), (isoformat (now w)).
  split; [done|]. split; [done|].
  split; [rewrite listing_enum; apply NoDup_elements|].
  split; [intros x; rewrite listing_enum, elem_of_elements;
          apply elem_of_list_to_set|].
  split; [by eapply detect_departure_arrival_labels|].
  apply isoformat_iso8601.
Qed.

End TurnLaws.

(** ** The loop *)

Section LoopLaws.

Variable driver : world → result (list string).

(** The four ways the [try] body of a turn can go. *)
Lemma run_body_cases (w : world) (self : RFIDReader) :
  (∃ e, driver w = Raise e ∧ run_body driver w self = (Raise e, self, []))
  ∨ (∃ tags,
       driver w = Ok tags
       ∧ detect_departure_arrival self (list_to_set tags) = None
       ∧ run_body driver w self
         = (if sigint w then Raise KeyboardInterrupt else Ok tt, self,
            [Sleep 1]))
  ∨ (∃ tags ev lv msg,
       driver w = Ok tags
       ∧ detect_departure_arrival self (list_to_set tags) = Some ev
       ∧ http_outcome (http w)
       ∧ send_to_api w (list_to_set tags) ev self
         = (Ok tt, self,
            [Post (event_request w self (list_to_set tags) ev); Log lv msg])
       ∧ run_body driver w self
         = (if sigint w then Raise KeyboardInterrupt else Ok tt,
            {| api_url := api_url self; last_tags := list_to_set tags |},
            [Post (event_request w self (list_to_set tags) ev); Log lv msg;
             Sleep 1]))
  ∨ (∃ tags ev e,
       driver w = Ok tags
       ∧ detect_departure_arrival self (list_to_set tags) = Some ev
       ∧ http w = Raise e ∧ isinstance e RequestException_cls = false
       ∧ run_body driver w self
         = (Raise e, self,
            [Post (event_request w self (list_to_set tags) ev)])).
Proof.
  destruct (driver w) as [tags|e] eqn:Hd.
  - destruct (detect_departure_arrival self (list_to_set tags)) as [ev|]
      eqn:Hc.
    + assert (http_outcome (http w)
              ∨ ∃ e, http w = Raise e
                     ∧ isinstance e RequestException_cls = false)
        as [Hw | (e & Hw & He)].
      { destruct (http w) as [r|[|m|m|m]]; simpl; eauto. }
      * right; right; left.
        destruct (send_to_api_returns w (list_to_set tags) ev self Hw)
          as (lv & msg & Hs & _).
        exists tags, ev, lv, msg. repeat (split; [done|]).
        rewrite (run_body_event _ _ _ _ _ Hd Hc), Hs. done.
      * right; right; right. exists tags, ev, e. repeat (split; [done|]).
        rewrite (run_body_event _ _ _ _ _ Hd Hc).
        by rewrite (send_to_api_propagates _ _ _ _ _ Hw He).
    + right; left. exists tags. repeat (split; [done|]).
      by apply (run_body_no_event _ _ _ tags).
  - left. exists e. split; [done|]. by apply run_body_read_fails.
Qed.

Lemma tags_of_event_request (w : world) (self : RFIDReader)
    (tags : gset string) (ev : string) :
  tags_of (event_request w self tags ev) = tags.
Proof.
  unfold tags_of. simpl. apply set_eq. intros x.
  rewrite elem_of_list_to_set, listing_enum. apply elem_of_elements.
Qed.

(** [last_tags] changes in a turn only at the end of a dispatch that came
    back to the loop, and then to the tag set of that event. *)
Lemma cycle_mutation (w : world) (self self' : RFIDReader)
    (r : result control) (t : list action) :
  cycle driver w self = (r, self', t) →
  last_tags self' ≠ last_tags self →
  ∃ tags ev t1,
    driver w = Ok tags
    ∧ detect_departure_arrival self (list_to_set tags) = Some ev
    ∧ send_to_api w (list_to_set tags) ev self = (Ok tt, self, t1)
    ∧ last_tags self' = list_to_set tags.
Proof.
  rewrite cycle_of_body.
  destruct (run_body_cases w self)
    as [(e & Hd & ->) | [(tags & Hd & Hc & ->)
       | [(tags & ev & lv & msg & Hd & Hc & Hw & Hs & ->)
       | (tags & ev & e & Hd & Hc & Hw & He & ->)]]]; intros Hcy Hne.
  - destruct e; simplify_eq; done.
  - destruct (sigint w); simplify_eq; done.
  - exists tags, ev. eexists. repeat (split; [done|]).
    destruct (sigint w); by simplify_eq.
  - destruct e; simplify_eq; done.
Qed.

(** When the HTTP exchange of a turn ends in a response or a transport
    failure, [last_tags] after the turn is the tag set of the request the
    turn posted, and is unchanged when the turn posted none. *)
Lemma cycle_last_tags (w : world) (self self' : RFIDReader)
    (r : result control) (t : list action) :
  http_outcome (http w) →
  cycle driver w self = (r, self', t) →
  last_tags self'
  = match last (posts t) with
    | Some rq => tags_of rq
    | None => last_tags self
    end.
Proof.
  intros Hout. rewrite cycle_of_body.
  destruct (run_body_cases w self)
    as [(e & Hd & ->) | [(tags & Hd & Hc & ->)
       | [(tags & ev & lv & msg & Hd & Hc & Hw & Hs & ->)
       | (tags & ev & e & Hd & Hc & Hw & He & ->)]]]; intros Hcy.
  - destruct e; simplify_eq; done.
  - destruct (sigint w); simplify_eq; done.
  - destruct (sigint w); simplify_eq; simpl;
      by rewrite tags_of_event_request.
  - rewrite Hw in Hout. destruct e; done.
Qed.

Lemma loop_last_tags (ws : list world) :
  Forall (λ w, http_outcome (http w)) ws →
  ∀ (self self' : RFIDReader) (r : result progress) (t : list action),
    loop driver ws self = (r, self', t) →
    last_tags self'
    = match last (posts t) with
      | Some rq => tags_of rq
      | None => last_tags self
      end.
Proof.
  induction 1 as [|w ws Hw _ IH]; intros self self' r t; simpl.
  - unfold ret. by intros [= <- <- <-].
  - unfold bind.
    destruct (cycle driver w self) as [[[c|e] self1] t1] eqn:Hcy.
    + pose proof (cycle_last_tags _ _ _ _ _ Hw Hcy) as H1.
      destruct c.
      * destruct (loop driver ws self1) as [[r2 self2] t2] eqn:Hl.
        intros [= <- <- <-]. rewrite (IH _ _ _ _ Hl), H1.
        unfold posts. rewrite omap_app, last_app.
        by destruct (last (omap _ t2)).
      * unfold ret. intros [= <- <- <-]. by rewrite app_nil_r.
    + intros [= <- <- <-]. by apply (cycle_last_tags _ _ _ _ _ Hw Hcy).
Qed.

(** C3, as the code has it.  [last_tags] starts as the empty set.  A turn
    changes it only at the end of a dispatch that came back to the loop,
    whether the HTTP exchange succeeded or failed, and then to the tag set
    of the event just dispatched, never to a reading that was not
    classified as an event.  So, in every state reached by turns whose
    HTTP exchanges end in a response or a transport failure, [last_tags] is
    the tag set of the most recently posted event, or the empty set when
    none was posted. *)
Theorem last_tags_invariant (url : string) (ws : list world) :
  last_tags (init url) = ∅
  ∧ (∀ w self self' r t,
       cycle driver w self = (r, self', t) →
       last_tags self' ≠ last_tags self →
       ∃ tags ev t1,
         driver w = Ok tags
         ∧ detect_departure_arrival self (list_to_set tags) = Some ev
         ∧ send_to_api w (list_to_set tags) ev self = (Ok tt, self, t1)
         ∧ last_tags self' = list_to_set tags)
  ∧ (Forall (λ w, http_outcome (http w)) ws →
     ∀ r self t,
       run driver ws (init url) = (r, self, t) →
       last_tags self = latest_posted t).
Proof.
  split; [done|]. split; [apply cycle_mutation|].
  intros Hws r self t. unfold run, bind, logging_info, emit. simpl.
  destruct (loop driver ws (init url)) as [[r2 self2] t2] eqn:Hl.
  intros [= <- <- <-]. rewrite (loop_last_tags _ Hws _ _ _ _ Hl).
  unfold latest_posted. simpl. done.
Qed.

End LoopLaws.

(** ** Leaving the loop *)

Section Termination.

Variable driver : world → result (list string).

(** A turn in which no Ctrl-C is delivered and no exception outside the
    class [Exception] is raised always hands over to the next turn, whatever
    else goes wrong in it. *)
Lemma cycle_continues (w : world) (self : RFIDReader) :
  ¬ interrupted driver w →
  ¬ raises_uncaught driver w →
  ∃ self' t, cycle driver w self = (Ok Next, self', t).
Proof.
  unfold interrupted, raises_uncaught, uncaught. intros Hi Hu.
  rewrite cycle_of_body.
  assert (sigint w = false) as Hs by (destruct (sigint w); tauto).
  destruct (run_body_cases driver w self)
    as [(e & Hd & ->) | [(tags & Hd & Hc & ->)
       | [(tags & ev & lv & msg & Hd & Hc & Hw & _ & ->)
       | (tags & ev & e & Hd & Hc & Hw & He & ->)]]]; rewrite Hs.
  - destruct e as [|m|m|m]; eauto.
    + tauto.
    + exfalso. apply Hu. exists (OtherBaseException m). auto.
  - eauto.
  - eauto.
  - destruct e as [|m|m|m]; eauto.
    + tauto.
    + exfalso. apply Hu. exists (OtherBaseException m). auto.
Qed.

(** A turn ends the loop in two ways only.  Either Ctrl-C was delivered in
    it, and the turn ends by [break] or with the [KeyboardInterrupt] itself;
    or the tag source or the HTTP client raised an exception outside the
    class [Exception], and that exception leaves the turn.  An exception of
    class [Exception] never does. *)
Lemma cycle_stops_interrupted (w : world) (self self' : RFIDReader)
    (r : result control) (t : list action) :
  cycle driver w self = (r, self', t) →
  r ≠ Ok Next →
  (interrupted driver w ∧ (r = Ok Break ∨ r = Raise KeyboardInterrupt))
  ∨ (∃ e, uncaught e ∧ r = Raise e
          ∧ (driver w = Raise e ∨ http w = Raise e)).
Proof.
  unfold interrupted, uncaught. rewrite cycle_of_body.
  destruct (run_body_cases driver w self)
    as [(e & Hd & ->) | [(tags & Hd & Hc & ->)
       | [(tags & ev & lv & msg & Hd & Hc & Hw & _ & ->)
       | (tags & ev & e & Hd & Hc & Hw & He & ->)]]];
    try destruct e; destruct (sigint w); intros [= <- <- <-] Hr;
    try done; eauto 8;
    right; eexists (OtherBaseException _); eauto.
Qed.

(** Ctrl-C during the cooldown: the [KeyboardInterrupt] is raised inside the
    [except Exception] clause and leaves the [try] statement. *)
Lemma cycle_cooldown_interrupted (w : world) (self self1 : RFIDReader)
    (e : exn) (t1 : list action) :
  run_body driver w self = (Raise e, self1, t1) →
  isinstance e Exception_cls = true →
  sigint w = true →
  cycle driver w self
  = (Raise KeyboardInterrupt, self1,
     t1 ++ [Log ERROR ("Error in RFID reader: " +:+ str e); Sleep 5])%list.
Proof.
  intros Hb He Hs. rewrite cycle_of_body, Hb, Hs. by destruct e.
Qed.

Lemma loop_keeps_polling (ws : list world) :
  Forall (λ w, ¬ interrupted driver w ∧ ¬ raises_uncaught driver w) ws →
  ∀ self, ∃ self' t, loop driver ws self = (Ok Polling, self', t).
Proof.
  induction 1 as [|w ws [Hi Hu] _ IH]; intros self; simpl.
  - unfold ret. eauto.
  - unfold bind.
    destruct (cycle_continues w self Hi Hu) as (self1 & t1 & ->).
    destruct (IH self1) as (self2 & t2 & ->). eauto.
Qed.

Lemma loop_stops_interrupted (ws : list world) :
  ∀ (self self' : RFIDReader) (r : result progress) (t : list action),
    loop driver ws self = (r, self', t) →
    r ≠ Ok Polling →
    (Exists (interrupted driver) ws
     ∧ (r = Ok Returned ∨ r = Raise KeyboardInterrupt))
    ∨ (∃ e, uncaught e ∧ r = Raise e
            ∧ Exists (λ w, driver w = Raise e ∨ http w = Raise e) ws).
Proof.
  induction ws as [|w ws IH]; intros self self' r t; simpl.
  - unfold ret. intros [= <- <- <-] Hr. done.
  - unfold bind.
    destruct (cycle driver w self) as [[c self1] t1] eqn:Hcy.
    assert (c = Ok Next ∨ c ≠ Ok Next) as [-> | Hc]
      by (destruct c as [[]|]; auto).
    + destruct (loop driver ws self1) as [[r2 self2] t2] eqn:Hl.
      intros [= <- <- <-] Hr.
      destruct (IH _ _ _ _ Hl Hr) as [[Hex Hres] | (e & Hu & -> & Hex)].
      * left. split; [by apply Exists_cons_tl | done].
      * right. exists e. repeat split; try apply Hu.
        by apply Exists_cons_tl.
    + destruct (cycle_stops_interrupted _ _ _ _ _ Hcy Hc)
        as [[Hi [-> | ->]] | (e & Hu & -> & He)];
        unfold ret; intros [= <- <- <-] _.
      * left. split; [by apply Exists_cons_hd | auto].
      * left. split; [by apply Exists_cons_hd | auto].
      * right. exists e. repeat split; try apply Hu.
        by apply Exists_cons_hd.
Qed.

End Termination.

(** ** The program as shipped *)

Lemma shipped_cycle (w : world) (self : RFIDReader) :
  last_tags self = ∅ →
  cycle read_tags w self
  = (Ok (if sigint w then Break else Next), self,
     Sleep 1 :: (if sigint w then [Log INFO "RFID reader stopped by user"]
                 else [])).
Proof.
  intros He. rewrite cycle_of_body.
  rewrite (run_body_no_event read_tags w self []); [by destruct (sigint w)
    | done |].
  eapply classify_functional; [apply detect_departure_arrival_sound|].
  rewrite He. apply classify_same; tauto.
Qed.

Lemma shipped_loop (ws : list world) (self : RFIDReader) :
  last_tags self = ∅ →
  ∃ r t, loop read_tags ws self = (Ok r, self, t) ∧ posts t = []
         ∧ (r = Returned ↔ Exists (λ w, sigint w = true) ws).
Proof.
  intros He. induction ws as [|w ws (r & t & IH & Hp & Hr)]; simpl.
  - exists Polling, []. unfold ret. split; [done|]. split; [done|].
    split; [done|]. by intros ?%Exists_nil.
  - unfold bind. rewrite (shipped_cycle w self He).
    destruct (sigint w) eqn:Hs.
    + do 2 eexists. unfold ret. split; [reflexivity|]. split; [done|].
      split; [|done]. intros _. by apply Exists_cons_hd.
    + rewrite IH. exists r, (Sleep 1 :: t). split; [done|]. split; [done|].
      rewrite Hr, Exists_cons. split; [auto|]. intros [?|?]; congruence.
Qed.

(** C10. In the program as shipped [read_tags] returns the empty list
    whatever the hardware sees; so in every turn the current tag set is
    empty and classifies to [None] against the empty [last_tags], the reader
    is in its initial state after any number of turns, and no HTTP request
    is ever issued. *)
Theorem shipped_reader_is_idle (url : string) (ws : list world) :
  (∀ w, read_tags w = Ok [])
  ∧ detect_departure_arrival (init url) (list_to_set []) = None
  ∧ ∃ r t, run read_tags ws (init url) = (Ok r, init url, t)
           ∧ posts t = [].
Proof.
  split; [done|]. split.
  { eapply classify_functional; [apply detect_departure_arrival_sound|].
    apply classify_same; simpl; tauto. }
  destruct (shipped_loop ws (init url) eq_refl) as (r & t & Hl & Hp & _).
  exists r. eexists. unfold run, bind, logging_info, emit. rewrite Hl.
  split; [reflexivity|done].
Qed.

(** ** Worked turns *)

(** C9 fails on this input.  The tag source raises, the loop enters its
    5-second cooldown, and Ctrl-C arrives during that sleep: the
    [KeyboardInterrupt] is raised inside the [except Exception] clause, where
    the [except KeyboardInterrupt] clause of the same [try] does not apply.
    It leaves [run] as an uncaught exception and nothing logs that the
    reader was stopped by the user. *)
Theorem interrupt_during_cooldown_escapes :
  run read_tags_hw [world_cooldown_interrupted] (init default_api_url)
  = (Raise KeyboardInterrupt, init default_api_url,
     [ Log INFO "Starting RFID reader...";
       Log ERROR "Error in RFID reader: antenna not responding";
       Sleep 5 ]).
Proof. reflexivity. Qed.

(** The same Ctrl-C during the normal one-second sleep ends the loop through
    [break]. *)
Lemma interrupt_during_sleep_breaks :
  run read_tags_hw [world_sleep_interrupted] (init default_api_url)
  = (Ok Returned, init default_api_url,
     [ Log INFO "Starting RFID reader...";
       Sleep 1;
       Log INFO "RFID reader stopped by user" ]).
Proof. vm_compute. reflexivity. Qed.

(** C3, as stated, fails: [last_tags] is also mutated after a dispatch that
    did not succeed.  The request of [world_refused] ends in a transport
    failure, and the turn still moves [last_tags] from the empty set to the
    tags just read. *)
Lemma last_tags_mutated_after_failed_dispatch :
  ¬ (∀ (driver : world → result (list string)) (w : world)
       (self self' : RFIDReader) (r : result control) (t : list action),
       cycle driver w self = (r, self', t) →
       last_tags self' ≠ last_tags self →
       ∃ rs, http w = Ok rs ∧ is_2xx rs).
Proof.
  intros H.
  destruct (H read_tags_hw world_refused (init default_api_url)
              {| api_url := default_api_url;
                 last_tags := list_to_set ["A1"; "A2"] |}
              (Ok Next)
              [ Post (event_request world_refused (init default_api_url)
                        (list_to_set ["A1"; "A2"]) "departure");
                Log ERROR "Failed to send API request: Connection refused";
                Sleep 1 ])
    as (rs & Hrs & _).
  - vm_compute. reflexivity.
  - simpl. intros Heq. assert ("A1" ∈ (∅ : gset string)) as Hin
      by (rewrite <- Heq; set_solver). set_solver.
  - discriminate Hrs.
Qed.

(** ** The laws at work on sample turns *)

Lemma state_update_law_witness :
  (read_tags_hw world_refused = Ok ["A1"; "A2"]
   ∧ detect_departure_arrival (init default_api_url)
       (list_to_set ["A1"; "A2"]) = Some "departure"
   ∧ http_outcome (http world_refused))
  ∧ ∃ self' t,
      cycle read_tags_hw world_refused (init default_api_url)
        = (Ok (if sigint world_refused then Break else Next), self', t)
      ∧ last_tags self' = list_to_set ["A1"; "A2"]
      ∧ api_url self' = api_url (init default_api_url)
      ∧ posts t = [event_request world_refused (init default_api_url)
                     (list_to_set ["A1"; "A2"]) "departure"]
      ∧ sleeps t = [1%nat]
      ∧ (dispatch_failed (http world_refused) →
         ∃ m, errors t = ["Failed to send API request: " +:+ m]).
Proof.
  split.
  - split; [reflexivity|]. split; [vm_compute; reflexivity | exact I].
  - apply (state_update_law read_tags_hw world_refused
             (init default_api_url) ["A1"; "A2"] "departure");
      [reflexivity | vm_compute; reflexivity | exact I].
Defined.

Lemma no_event_law_witness :
  (read_tags_hw world_not_modified = Ok ["A1"]
   ∧ detect_departure_arrival
       {| api_url := default_api_url; last_tags := {["A1"]} |}
       (list_to_set ["A1"]) = None)
  ∧ ∃ r t,
      cycle read_tags_hw world_not_modified
        {| api_url := default_api_url; last_tags := {["A1"]} |}
        = (r, {| api_url := default_api_url; last_tags := {["A1"]} |}, t)
      ∧ posts t = [].
Proof.
  split.
  - split; [reflexivity | vm_compute; reflexivity].
  - apply (no_event_law read_tags_hw world_not_modified
             {| api_url := default_api_url; last_tags := {["A1"]} |}
             ["A1"]);
      [reflexivity | vm_compute; reflexivity].
Defined.

Lemma unexpected_error_cooldown_witness :
  (run_body read_tags_hw world_broken (init default_api_url)
     = (Raise (OtherException "antenna not responding"),
        init default_api_url, [])
   ∧ isinstance (OtherException "antenna not responding") Exception_cls
     = true)
  ∧ ∃ r t,
      cycle read_tags_hw world_broken (init default_api_url)
        = (r, init default_api_url, t)
      ∧ (sigint world_broken = false → r = Ok Next)
      ∧ errors t
        = (errors [] ++ ["Error in RFID reader: "
                           +:+ str (OtherException
                                      "antenna not responding")])%list
      ∧ sleeps t = [5%nat].
Proof.
  split.
  - split; reflexivity.
  - apply (unexpected_error_cooldown read_tags_hw world_broken
             (init default_api_url) (init default_api_url)
             (OtherException "antenna not responding") []);
      reflexivity.
Defined.

Lemma dispatched_event_record_witness :
  (read_tags_hw world_delivered = Ok ["A1"; "A2"]
   ∧ detect_departure_arrival (init default_api_url)
       (list_to_set ["A1"; "A2"]) = Some "departure")
  ∧ ∃ r self' t l ts,
      cycle read_tags_hw world_delivered (init default_api_url)
        = (r, self', t)
      ∧ posts t =
          [ {| req_url := api_url (init default_api_url) +:+ "/rfid/event";
               req_json := [ ("tags", JArray l);
                             ("event_type", JString "departure");
                             ("timestamp", JString ts);
                             ("location", JString "main_door") ] |} ]
      ∧ NoDup l ∧ (∀ x, x ∈ l ↔ x ∈ ["A1"; "A2"])
      ∧ ("departure" = "departure" ∨ "departure" = "arrival")
      ∧ iso8601 ts.
Proof.
  split.
  - split; [reflexivity | vm_compute; reflexivity].
  - apply (dispatched_event_record read_tags_hw world_delivered
             (init default_api_url) ["A1"; "A2"] "departure");
      [reflexivity | vm_compute; reflexivity].
Defined.

Lemma last_tags_invariant_witness :
  Forall (λ w, http_outcome (http w))
    [world_refused; world_broken; world_delivered]
  ∧ ∀ r self t,
      run read_tags_hw [world_refused; world_broken; world_delivered]
        (init default_api_url) = (r, self, t) →
      last_tags self = latest_posted t.
Proof.
  split.
  - repeat constructor.
  - apply (last_tags_invariant read_tags_hw default_api_url
             [world_refused; world_broken; world_delivered]).
    repeat constructor.
Defined.

(** ** The scenarios of the design document *)

(** Scenario 1: nothing seen before, two tags read. *)
Example scenario_first_sighting :
  cycle read_tags_hw world_delivered (init default_api_url)
  = (Ok Next,
     {| api_url := default_api_url; last_tags := {["A1"; "A2"]} |},
     [ Post {| req_url := "http://localhost:3001/api/rfid/event";
               req_json := [ ("tags", JArray ["A1"; "A2"]);
                             ("event_type", JString "departure");
                             ("timestamp",
                              JString "2024-03-09T07:05:00.001500");
                             ("location", JString "main_door") ] |};
       Log INFO "Sent departure event with 2 tags";
       Sleep 1 ]).
Proof. vm_compute. reflexivity. Qed.

(** Scenario 2: two tags seen before, nothing read. *)
Example scenario_all_gone :
  cycle read_tags_hw world_empty_delivered
    {| api_url := default_api_url; last_tags := {["A1"; "A2"]} |}
  = (Ok Next,
     {| api_url := default_api_url; last_tags := ∅ |},
     [ Post {| req_url := "http://localhost:3001/api/rfid/event";
               req_json := [ ("tags", JArray []);
                             ("event_type", JString "arrival");
                             ("timestamp", JString "2024-03-09T07:05:02");
                             ("location", JString "main_door") ] |};
       Log INFO "Sent arrival event with 0 tags";
       Sleep 1 ]).
Proof. vm_compute. reflexivity. Qed.

(** Scenario 3: the tag seen before is read again. *)
Example scenario_unchanged :
  cycle read_tags_hw world_not_modified
    {| api_url := default_api_url; last_tags := {["A1"]} |}
  = (Ok Next, {| api_url := default_api_url; last_tags := {["A1"]} |},
     [Sleep 1]).
Proof. vm_compute. reflexivity. Qed.

(** Scenario 4: the transport fails; the state still advances and the turn
    ends with the normal one-second sleep. *)
Example scenario_transport_error :
  cycle read_tags_hw world_refused (init default_api_url)
  = (Ok Next,
     {| api_url := default_api_url; last_tags := {["A1"; "A2"]} |},
     [ Post {| req_url := "http://localhost:3001/api/rfid/event";
               req_json := [ ("tags", JArray ["A1"; "A2"]);
                             ("event_type", JString "departure");
                             ("timestamp", JString "2024-03-09T07:05:00");
                             ("location", JString "main_door") ] |};
       Log ERROR "Failed to send API request: Connection refused";
       Sleep 1 ]).
Proof. vm_compute. reflexivity. Qed.

(** A status in 400..599 is reported with the message of [HTTPError]. *)
Example scenario_server_error :
  send_to_api world_unavailable {["A1"]} "departure" (init default_api_url)
  = (Ok tt, init default_api_url,
     [ Post {| req_url := "http://localhost:3001/api/rfid/event";
               req_json := [ ("tags", JArray ["A1"]);
                             ("event_type", JString "departure");
                             ("timestamp", JString "2024-03-09T07:05:03");
                             ("location", JString "main_door") ] |};
       Log ERROR
         "Failed to send API request: 503 Server Error: Service Unavailable for url: http://localhost:3001/api/rfid/event"
     ]).
Proof. vm_compute. reflexivity. Qed.

(** * Further properties *)

(** ** The classifier, by cardinality *)

Lemma size_zero_empty (X : gset string) : size X = 0%nat ↔ X = ∅.
Proof. rewrite size_empty_iff. apply leibniz_equiv_iff. Qed.

Lemma classify_detect (self : RFIDReader) (cur : gset string)
    (r : option string) :
  classify (last_tags self) cur r → detect_departure_arrival self cur = r.
Proof.
  intros H. eapply classify_functional; [|exact H].
  apply detect_departure_arrival_sound.
Qed.

Lemma classify_departure_size (L C : gset string) :
  classify L C (Some "departure") ↔ (size L < size C)%nat.
Proof.
  split.
  - inversion 1 as [HL HC | | | |]; subst; [|lia].
    rewrite size_empty. apply Nat.neq_0_lt_0. by rewrite size_zero_empty.
  - intros Hlt. destruct (decide (L = ∅)) as [-> | HL].
    + apply classify_first_sighting; [done|]. intros ->. lia.
    + assert (C ≠ ∅) by (intros ->; rewrite size_empty in Hlt; lia).
      apply classify_changed_more; [tauto | tauto | | lia].
      intros ->. lia.
Qed.

Lemma classify_arrival_size (L C : gset string) :
  classify L C (Some "arrival") ↔ L ≠ C ∧ (size C ≤ size L)%nat.
Proof.
  split.
  - inversion 1 as [ | _ HL HC | | |]; subst.
    + split; [done|]. rewrite size_empty. lia.
    + split; [done | lia].
  - intros [Hne Hle]. destruct (decide (C = ∅)) as [-> | HC].
    + apply classify_all_gone; [tauto | | done]. by intros ->.
    + assert (L ≠ ∅).
      { intros ->. rewrite size_empty in Hle.
        apply HC, size_zero_empty. lia. }
      apply classify_changed_not_more; [tauto | tauto | done | lia].
Qed.

Lemma classify_none_same (L C : gset string) : classify L C None ↔ L = C.
Proof.
  split.
  - by inversion 1.
  - intros <-. apply classify_same; tauto.
Qed.

(** X1. The classifier reports an event exactly when the tag set changed:
    it returns [None] if and only if the current set equals [last_tags]. *)
Theorem detect_departure_arrival_none_iff (self : RFIDReader)
    (current_tags : gset string) :
  detect_departure_arrival self current_tags = None
  ↔ current_tags = last_tags self.
Proof.
  split.
  - intros H. symmetry. apply classify_none_same. rewrite <- H.
    apply detect_departure_arrival_sound.
  - intros ->. by apply classify_detect, classify_none_same.
Qed.

(** X2. The label depends on the two cardinalities only, the first two
    branches included: "departure" exactly when the current set has strictly
    more tags than [last_tags], "arrival" exactly when the set changed
    without growing. *)
Theorem detect_departure_arrival_by_size (self : RFIDReader)
    (current_tags : gset string) :
  (detect_departure_arrival self current_tags = Some "departure"
   ↔ (size current_tags > size (last_tags self))%nat)
  ∧ (detect_departure_arrival self current_tags = Some "arrival"
     ↔ current_tags ≠ last_tags self
       ∧ (size current_tags ≤ size (last_tags self))%nat).
Proof.
  split; split.
  - intros H. apply classify_departure_size. rewrite <- H.
    apply detect_departure_arrival_sound.
  - intros H. by apply classify_detect, classify_departure_size.
  - intros H.
    pose proof (detect_departure_arrival_sound self current_tags) as Hc.
    rewrite H in Hc. apply classify_arrival_size in Hc as [? ?]. auto.
  - intros [? ?]. apply classify_detect, classify_arrival_size. auto.
Qed.

(** X3. Reversing a change reverses the label when the cardinalities differ:
    going from [A] to [B] is a "departure" exactly when going from [B] to
    [A] is an "arrival". *)
Theorem detect_departure_arrival_reversed (url : string)
    (A B : gset string) :
  size A ≠ size B →
  detect_departure_arrival {| api_url := url; last_tags := A |} B
    = Some "departure"
  ↔ detect_departure_arrival {| api_url := url; last_tags := B |} A
    = Some "arrival".
Proof.
  intros Hne. split; intros H.
  - apply classify_detect, classify_arrival_size. simpl.
    pose proof (detect_departure_arrival_sound
                  {| api_url := url; last_tags := A |} B) as Hc.
    rewrite H in Hc. apply classify_departure_size in Hc. simpl in Hc.
    split; [|lia]. intros ->. lia.
  - apply classify_detect, classify_departure_size. simpl.
    pose proof (detect_departure_arrival_sound
                  {| api_url := url; last_tags := B |} A) as Hc.
    rewrite H in Hc. apply classify_arrival_size in Hc as [_ Hle].
    simpl in Hle. lia.
Qed.

Lemma detect_departure_arrival_reversed_witness :
  size ({["A1"]} : gset string) ≠ size ({["A1"; "A2"]} : gset string)
  ∧ (detect_departure_arrival
       {| api_url := default_api_url; last_tags := {["A1"]} |}
       {["A1"; "A2"]} = Some "departure"
     ↔ detect_departure_arrival
         {| api_url := default_api_url; last_tags := {["A1"; "A2"]} |}
         {["A1"]} = Some "arrival").
Proof.
  split.
  - vm_compute. lia.
  - apply (detect_departure_arrival_reversed default_api_url
             {["A1"]} {["A1"; "A2"]}).
    vm_compute. lia.
Defined.

(** X4. Replacing tags by as many other tags is reported as an "arrival",
    in either direction: the classifier looks at how many tags there are,
    not at which ones. *)
Theorem detect_departure_arrival_swapped (url : string) (A B : gset string) :
  A ≠ B → size A = size B →
  detect_departure_arrival {| api_url := url; last_tags := A |} B
    = Some "arrival"
  ∧ detect_departure_arrival {| api_url := url; last_tags := B |} A
    = Some "arrival".
Proof.
  intros Hne Heq.
  split; apply classify_detect, classify_arrival_size; simpl;
    (split; [congruence | lia]).
Qed.

Lemma detect_departure_arrival_swapped_witness :
  (({["A1"]} : gset string) ≠ {["B7"]}
   ∧ size ({["A1"]} : gset string) = size ({["B7"]} : gset string))
  ∧ detect_departure_arrival
      {| api_url := default_api_url; last_tags := {["A1"]} |} {["B7"]}
    = Some "arrival"
  ∧ detect_departure_arrival
      {| api_url := default_api_url; last_tags := {["B7"]} |} {["A1"]}
    = Some "arrival".
Proof.
  split.
  - split; [|vm_compute; reflexivity].
    apply (bool_decide_unpack _). vm_compute. exact I.
  - apply (detect_departure_arrival_swapped default_api_url
             {["A1"]} {["B7"]}); [|vm_compute; reflexivity].
    apply (bool_decide_unpack _). vm_compute. exact I.
Defined.

(** ** The dispatcher, whatever happens *)

(** X5. However the HTTP exchange ends, [send_to_api] issues exactly one
    request, to [api_url/rfid/event], and leaves the reader untouched; an
    exception leaves it only when [requests.post] raised it and it is not a
    [RequestException]. *)
Theorem send_to_api_always (w : world) (tags : gset string)
    (event_type : string) (self : RFIDReader) :
  let '(r, self', t) := send_to_api w tags event_type self in
  self' = self
  ∧ (∃ data, posts t = [ {| req_url := api_url self +:+ "/rfid/event";
                            req_json := data |} ])
  ∧ (∀ e, r = Raise e →
          http w = Raise e ∧ isinstance e RequestException_cls = false).
Proof.
  assert (http_outcome (http w)
          ∨ ∃ e, http w = Raise e ∧ isinstance e RequestException_cls = false)
    as [Hw | (e & Hw & He)].
  { destruct (http w) as [r|[|m|m|m]]; simpl; eauto. }
  - destruct (send_to_api_returns w tags event_type self Hw)
      as (lv & msg & -> & _).
    split; [done|]. split; [|done]. eexists. by destruct lv.
  - rewrite (send_to_api_propagates _ _ _ _ _ Hw He).
    split; [done|]. split; [by eexists|]. by intros e' [= <-].
Qed.

(** ** One turn, whatever happens *)

Section TurnShape.

Variable driver : world → result (list string).

(** X6. A turn whose read succeeds issues a request exactly when the tag set
    read differs from [last_tags]: no event is dropped by the truthiness
    test of [run], and none is sent for an unchanged set. *)
Theorem cycle_posts_iff_changed (w : world) (self : RFIDReader)
    (tags : list string) :
  driver w = Ok tags →
  let '(_, _, t) := cycle driver w self in
  posts t ≠ [] ↔ list_to_set tags ≠ last_tags self.
Proof.
  intros Hd. rewrite cycle_of_body.
  destruct (run_body_cases driver w self)
    as [(e & Hd' & ->) | [(tags' & Hd' & Hc & ->)
       | [(tags' & ev & lv & msg & Hd' & Hc & Hw & _ & ->)
       | (tags' & ev & e & Hd' & Hc & Hw & He & ->)]]];
    rewrite Hd in Hd'; simplify_eq.
  - assert (list_to_set tags' = last_tags self) as Heq.
    { pose proof (detect_departure_arrival_sound self (list_to_set tags'))
        as Hs.
      rewrite Hc in Hs. by apply classify_none_same in Hs. }
    destruct (sigint w); simpl; split; intros H; by destruct H.
  - assert (list_to_set tags' ≠ last_tags self) as Hne.
    { intros Heq. apply eq_sym, classify_none_same, classify_detect in Heq.
      congruence. }
    destruct (sigint w), lv; simpl; split; done.
  - assert (list_to_set tags' ≠ last_tags self) as Hne.
    { intros Heq. apply eq_sym, classify_none_same, classify_detect in Heq.
      congruence. }
    destruct e; simpl in *; try done; destruct (sigint w); simpl;
      split; done.
Qed.

(** X7. No turn issues more than one request, logs more than one error or
    sleeps more than once; a turn that hands over to the next one has slept
    exactly once, for 1 or for 5 seconds. *)
Theorem cycle_at_most_once (w : world) (self : RFIDReader) :
  let '(r, _, t) := cycle driver w self in
  (length (posts t) ≤ 1)%nat ∧ (length (errors t) ≤ 1)%nat
  ∧ (length (sleeps t) ≤ 1)%nat
  ∧ (r = Ok Next → sleeps t = [1%nat] ∨ sleeps t = [5%nat]).
Proof.
  rewrite cycle_of_body.
  destruct (run_body_cases driver w self)
    as [(e & Hd & ->) | [(tags & Hd & Hc & ->)
       | [(tags & ev & lv & msg & Hd & Hc & Hw & _ & ->)
       | (tags & ev & e & Hd & Hc & Hw & He & ->)]]];
    try destruct e; try destruct lv; destruct (sigint w); simpl;
    repeat split; auto; try lia; try done.
Qed.

End TurnShape.

Lemma action_same_refl (a : action) : action_same a a.
Proof.
  destruct a as [lv msg|[url data]|n]; simpl; try done.
  split; [done|]. simpl. induction data as [|[k v] data IH]; constructor.
  - split; [done|]. destruct v; simpl; reflexivity.
  - done.
Qed.

Lemma trace_same_refl (t : list action) : trace_same t t.
Proof. induction t; constructor; [apply action_same_refl | done]. Qed.

Lemma event_request_same (w1 w2 : world) (self : RFIDReader)
    (tags : gset string) (ev : string) :
  now w1 = now w2 →
  request_same (event_request w1 self tags ev)
    (event_request w2 self tags ev).
Proof.
  intros Hnow. split; [done|]. simpl. rewrite Hnow.
  repeat constructor; simpl; try done.
  by rewrite !listing_enum.
Qed.

(** In two worlds with the same HTTP exchange the dispatcher ends the same
    way and logs the same; only the request can differ. *)
Lemma send_to_api_same_exchange (w1 w2 : world) (tags : gset string)
    (ev : string) (self : RFIDReader) :
  http w1 = http w2 →
  ∃ r t,
    send_to_api w1 tags ev self
      = (r, self, Post (event_request w1 self tags ev) :: t)
    ∧ send_to_api w2 tags ev self
      = (r, self, Post (event_request w2 self tags ev) :: t).
Proof.
  intros Hh.
  unfold send_to_api, try_except, bind, requests_post, raise_for_status,
    get_self, lift, emit, logging_info, logging_error, event_request.
  rewrite <- Hh. destruct (http w1) as [rs|[|m|m|m]]; simpl; eauto.
  repeat case_bool_decide; simpl; eauto.
Qed.

(** X8. A turn depends on the reading only through its set.  Two turns that
    differ only in the order and the repetitions of what [read_tags] returns,
    and in the order in which [list(tags)] enumerates the set, end the same
    way, leave the same reader, and log, sleep and post the same, up to the
    order of the tags in the posted list. *)
Theorem cycle_reading_as_set (driver : world → result (list string))
    (w1 w2 : world) (self : RFIDReader) (l1 l2 : list string) :
  driver w1 = Ok l1 → driver w2 = Ok l2 →
  (∀ x, x ∈ l1 ↔ x ∈ l2) →
  now w1 = now w2 → http w1 = http w2 → sigint w1 = sigint w2 →
  let '(r1, self1, t1) := cycle driver w1 self in
  let '(r2, self2, t2) := cycle driver w2 self in
  r1 = r2 ∧ self1 = self2 ∧ trace_same t1 t2.
Proof.
  intros H1 H2 Hel Hnow Hh Hs.
  assert ((list_to_set l1 : gset string) = list_to_set l2) as Heq.
  { apply set_eq. intros x. by rewrite !elem_of_list_to_set. }
  rewrite !cycle_of_body.
  destruct (detect_departure_arrival self (list_to_set l1)) as [ev|] eqn:Hc.
  - rewrite (run_body_event _ _ _ _ _ H1 Hc).
    rewrite Heq in Hc. rewrite (run_body_event _ _ _ _ _ H2 Hc).
    rewrite Heq, <- Hs.
    destruct (send_to_api_same_exchange w1 w2 (list_to_set l2) ev self Hh)
      as (r & t & -> & ->).
    pose proof (event_request_same w1 w2 self (list_to_set l2) ev Hnow)
      as Hrq.
    destruct r as [[]|e]; [|destruct e]; destruct (sigint w1); simpl;
      (split; [done|]); (split; [done|]);
      (constructor; [exact Hrq|]); apply trace_same_refl.
  - rewrite (run_body_no_event _ _ _ _ H1 Hc).
    rewrite Heq in Hc. rewrite (run_body_no_event _ _ _ _ H2 Hc), <- Hs.
    destruct (sigint w1); simpl; (split; [done|]); (split; [done|]);
      apply trace_same_refl.
Qed.

(** ** Several turns *)

Section Turns.

Variable driver : world → result (list string).

Lemma loop_cons (w : world) (ws : list world) (self : RFIDReader) :
  loop driver (w :: ws) self
  = match cycle driver w self with
    | (Ok Next, self1, t1) =>
        match loop driver ws self1 with
        | (r, self2, t2) => (r, self2, (t1 ++ t2)%list)
        end
    | (Ok Break, self1, t1) => (Ok Returned, self1, t1)
    | (Raise e, self1, t1) => (Raise e, self1, t1)
    end.
Proof.
  simpl. unfold bind.
  destruct (cycle driver w self) as [[[[]|e] self1] t1]; try done.
  unfold ret. by rewrite app_nil_r.
Qed.

Lemma loop_nil (self : RFIDReader) :
  loop driver [] self = (Ok Polling, self, []).
Proof. done. Qed.

Lemma run_of_loop (ws : list world) (self : RFIDReader) :
  run driver ws self
  = match loop driver ws self with
    | (r, self', t) => (r, self', Log INFO "Starting RFID reader..." :: t)
    end.
Proof.
  unfold run, bind, logging_info, emit.
  by destruct (loop driver ws self) as [[r self'] t].
Qed.

(** A turn with a classified event posts the record of that event, however
    the turn goes on. *)
Lemma cycle_event_posts (w : world) (self : RFIDReader) (tags : list string)
    (ev : string) :
  driver w = Ok tags →
  detect_departure_arrival self (list_to_set tags) = Some ev →
  ∃ r self' t,
    cycle driver w self = (r, self', t)
    ∧ posts t = [event_request w self (list_to_set tags) ev].
Proof.
  intros Hd Hc. rewrite cycle_of_body.
  destruct (run_body_cases driver w self)
    as [(e & Hd' & ->) | [(tags' & Hd' & Hc' & ->)
       | [(tags' & ev' & lv & msg & Hd' & Hc' & Hw & _ & ->)
       | (tags' & ev' & e & Hd' & Hc' & Hw & He & ->)]]];
    rewrite Hd in Hd'; simplify_eq.
  - destruct (sigint w), lv; do 3 eexists; (split; [reflexivity|done]).
  - destruct e; simpl in *; try done; destruct (sigint w);
      do 3 eexists; (split; [reflexivity|done]).
Qed.

(** X9. After a turn that dispatched an event, delivered or not, a turn that
    reads the same tags sends nothing: the two turns together issue the one
    request, and an event whose delivery failed is not sent again. *)
Theorem no_resend_after_dispatch (w1 w2 : world) (self : RFIDReader)
    (l1 l2 : list string) (ev : string) :
  driver w1 = Ok l1 → driver w2 = Ok l2 →
  (∀ x, x ∈ l2 ↔ x ∈ l1) →
  detect_departure_arrival self (list_to_set l1) = Some ev →
  http_outcome (http w1) → sigint w1 = false →
  let '(_, self', t) := loop driver [w1; w2] self in
  (∃ rq, posts t = [rq] ∧ tags_of rq = list_to_set l1)
  ∧ last_tags self' = list_to_set l1.
Proof.
  intros Hd1 Hd2 Hel Hc Hw Hs.
  assert ((list_to_set l2 : gset string) = list_to_set l1) as Heq.
  { apply set_eq. intros x. by rewrite !elem_of_list_to_set. }
  rewrite loop_cons, cycle_of_body, (run_body_event _ _ _ _ _ Hd1 Hc).
  destruct (send_to_api_returns w1 (list_to_set l1) ev self Hw)
    as (lv & msg & -> & _).
  rewrite Hs. cbv beta iota. rewrite loop_cons, cycle_of_body.
  rewrite (run_body_no_event _ _ _ l2 Hd2).
  2:{ apply classify_detect, classify_none_same. simpl. by rewrite Heq. }
  destruct (sigint w2); simpl; (split; [|done]); eexists;
    (split; [by destruct lv | apply tags_of_event_request]).
Qed.

(** X10. When the dispatcher is left by an exception that is not a
    [RequestException], [last_tags] is not advanced, so a following turn
    that reads the same tags classifies the change again and sends the event
    a second time, with the same tags and the same label. *)
Theorem resend_after_unexpected_error (w1 w2 : world) (self : RFIDReader)
    (l1 l2 : list string) (ev msg : string) :
  driver w1 = Ok l1 → driver w2 = Ok l2 →
  (∀ x, x ∈ l2 ↔ x ∈ l1) →
  detect_departure_arrival self (list_to_set l1) = Some ev →
  http w1 = Raise (OtherException msg) → sigint w1 = false →
  let '(_, _, t) := loop driver [w1; w2] self in
  ∃ rq1 rq2,
    posts t = [rq1; rq2]
    ∧ tags_of rq1 = list_to_set l1 ∧ tags_of rq2 = list_to_set l1
    ∧ event_type_of rq1 = Some ev ∧ event_type_of rq2 = Some ev.
Proof.
  intros Hd1 Hd2 Hel Hc Hw Hs.
  assert ((list_to_set l2 : gset string) = list_to_set l1) as Heq.
  { apply set_eq. intros x. by rewrite !elem_of_list_to_set. }
  rewrite loop_cons, cycle_of_body, (run_body_event _ _ _ _ _ Hd1 Hc).
  rewrite (send_to_api_propagates _ _ _ _ _ Hw eq_refl), Hs.
  cbv beta iota. rewrite <- Heq in Hc.
  destruct (cycle_event_posts w2 self l2 ev Hd2 Hc)
    as (r & self2 & t2 & Hcy & Hp).
  rewrite loop_cons, Hcy.
  assert (∀ t3, posts (t2 ++ t3) = (posts t2 ++ posts t3)%list) as Happ
    by (intros; apply omap_app).
  destruct r as [[]|e]; simpl; rewrite ?Happ, Hp; simpl;
    do 2 eexists; (split; [reflexivity|]);
    rewrite !tags_of_event_request; by rewrite Heq.
Qed.

End Turns.

(** ** Invariants of the whole run *)

Section RunInvariants.

Variable driver : world → result (list string).

Lemma posts_app (t1 t2 : list action) :
  posts (t1 ++ t2) = (posts t1 ++ posts t2)%list.
Proof. apply omap_app. Qed.

Lemma sleeps_app (t1 t2 : list action) :
  sleeps (t1 ++ t2) = (sleeps t1 ++ sleeps t2)%list.
Proof. apply omap_app. Qed.

(** What one turn does to the reader and where it posts. *)
Lemma cycle_step (w : world) (self self' : RFIDReader)
    (r : result control) (t : list action) :
  cycle driver w self = (r, self', t) →
  api_url self' = api_url self
  ∧ Forall (λ rq, req_url rq = api_url self +:+ "/rfid/event") (posts t)
  ∧ (last_tags self' = last_tags self
     ∨ ∃ l, driver w = Ok l ∧ last_tags self' = list_to_set l).
Proof.
  rewrite cycle_of_body.
  destruct (run_body_cases driver w self)
    as [(e & Hd & ->) | [(tags & Hd & Hc & ->)
       | [(tags & ev & lv & msg & Hd & Hc & Hw & _ & ->)
       | (tags & ev & e & Hd & Hc & Hw & He & ->)]]];
    try destruct e; try destruct lv; destruct (sigint w);
    intros [= <- <- <-]; simpl;
    (split; [done|]); (split; [by repeat constructor|]); eauto.
Qed.

Lemma loop_step (ws : list world) :
  ∀ (self self' : RFIDReader) (r : result progress) (t : list action),
    loop driver ws self = (r, self', t) →
    api_url self' = api_url self
    ∧ Forall (λ rq, req_url rq = api_url self +:+ "/rfid/event") (posts t)
    ∧ (last_tags self' = last_tags self
       ∨ ∃ w l, w ∈ ws ∧ driver w = Ok l ∧ last_tags self' = list_to_set l).
Proof.
  induction ws as [|w ws IH]; intros self self' r t.
  - rewrite loop_nil. intros [= <- <- <-]. by repeat split; auto.
  - rewrite loop_cons.
    destruct (cycle driver w self) as [[c self1] t1] eqn:Hcy.
    destruct (cycle_step _ _ _ _ _ Hcy) as (Hu & Hp & Hl).
    assert (last_tags self1 = last_tags self
            ∨ ∃ w' l, w' ∈ w :: ws ∧ driver w' = Ok l
                      ∧ last_tags self1 = list_to_set l) as Hl'.
    { destruct Hl as [?|(l & ? & ?)]; [by left|right].
      exists w, l. split; [by left | done]. }
    destruct c as [[]|e]; [|by intros [= <- <- <-]..].
    destruct (loop driver ws self1) as [[r2 self2] t2] eqn:Hl2.
    destruct (IH _ _ _ _ Hl2) as (Hu2 & Hp2 & Hlt2).
    intros [= <- <- <-]. split; [congruence|]. split.
    + rewrite posts_app. apply Forall_app. split; [done|].
      by rewrite <- Hu.
    + destruct Hlt2 as [->|(w' & l & Hin & ? & ?)]; [done|].
      right. exists w', l. split; [by right | done].
Qed.

(** X11. The loop never changes [api_url], and every request of a run, with
    any driver and whatever happens in it, goes to the one address
    [api_url/rfid/event]. *)
Theorem run_posts_to_api_url (ws : list world) (self : RFIDReader) :
  let '(_, self', t) := run driver ws self in
  api_url self' = api_url self
  ∧ Forall (λ rq, req_url rq = api_url self +:+ "/rfid/event") (posts t).
Proof.
  rewrite run_of_loop.
  destruct (loop driver ws self) as [[r self'] t] eqn:Hl.
  by destruct (loop_step _ _ _ _ _ Hl) as (? & ? & _).
Qed.

(** X12. At any point of a run, [last_tags] is either what it was at the
    start or the set of a reading that the tag source returned in one of the
    turns: the loop never stores anything else. *)
Theorem run_last_tags_is_a_reading (ws : list world) (self : RFIDReader) :
  let '(_, self', _) := run driver ws self in
  last_tags self' = last_tags self
  ∨ ∃ w l, w ∈ ws ∧ driver w = Ok l ∧ last_tags self' = list_to_set l.
Proof.
  rewrite run_of_loop.
  destruct (loop driver ws self) as [[r self'] t] eqn:Hl.
  by destruct (loop_step _ _ _ _ _ Hl) as (_ & _ & ?).
Qed.

(** A turn without Ctrl-C and without an exception outside the class
    [Exception] hands over after exactly one sleep. *)
Lemma cycle_continues_after_sleep (w : world) (self : RFIDReader) :
  ¬ interrupted driver w →
  ¬ raises_uncaught driver w →
  ∃ self' t, cycle driver w self = (Ok Next, self', t)
             ∧ length (sleeps t) = 1%nat.
Proof.
  unfold interrupted, raises_uncaught, uncaught. intros Hi Hu.
  rewrite cycle_of_body.
  assert (sigint w = false) as Hs by (destruct (sigint w); tauto).
  destruct (run_body_cases driver w self)
    as [(e & Hd & ->) | [(tags & Hd & Hc & ->)
       | [(tags & ev & lv & msg & Hd & Hc & Hw & _ & ->)
       | (tags & ev & e & Hd & Hc & Hw & He & ->)]]]; rewrite Hs.
  - destruct e as [|m|m|m]; eauto.
    + tauto.
    + exfalso. apply Hu. exists (OtherBaseException m). auto.
  - eauto.
  - destruct lv; eauto.
  - destruct e as [|m|m|m]; eauto.
    + tauto.
    + exfalso. apply Hu. exists (OtherBaseException m). auto.
Qed.

(** X13. As long as no Ctrl-C is delivered, and neither the tag source nor
    the HTTP client raises an exception outside the class [Exception] (such
    as [SystemExit]), the loop goes on, whatever exceptions of class
    [Exception] they raise, and it sleeps exactly once in every turn: after
    [n] turns [run] is still polling and has slept [n] times. *)
Theorem run_keeps_polling (ws : list world) (self : RFIDReader) :
  Forall (λ w, ¬ interrupted driver w ∧ ¬ raises_uncaught driver w) ws →
  ∃ self' t, run driver ws self = (Ok Polling, self', t)
             ∧ length (sleeps t) = length ws.
Proof.
  intros Hws. rewrite run_of_loop.
  enough (∃ self' t, loop driver ws self = (Ok Polling, self', t)
                     ∧ length (sleeps t) = length ws)
    as (self' & t & -> & Hlen) by eauto.
  revert self. induction Hws as [|w ws [Hi Hu] _ IH]; intros self.
  - rewrite loop_nil. eauto.
  - rewrite loop_cons.
    destruct (cycle_continues_after_sleep w self Hi Hu)
      as (self1 & t1 & -> & Hl1).
    destruct (IH self1) as (self2 & t2 & -> & Hl2).
    do 2 eexists. split; [reflexivity|].
    rewrite sleeps_app, length_app. simpl. lia.
Qed.

(** X14. [run] is left in two ways only: in a turn in which Ctrl-C is
    delivered, through [break] or with the [KeyboardInterrupt] itself; or by
    an exception outside the class [Exception] (such as [SystemExit]) that
    the tag source or the HTTP client raised in some turn.  No exception of
    class [Exception] ever leaves [run]. *)
Theorem run_exit_paths (ws : list world) (self : RFIDReader) :
  let '(r, _, _) := run driver ws self in
  r = Ok Polling
  ∨ (Exists (interrupted driver) ws
     ∧ (r = Ok Returned ∨ r = Raise KeyboardInterrupt))
  ∨ (∃ e, uncaught e ∧ r = Raise e
          ∧ Exists (λ w, driver w = Raise e ∨ http w = Raise e) ws).
Proof.
  rewrite run_of_loop.
  destruct (loop driver ws self) as [[r self'] t] eqn:Hl.
  assert (r = Ok Polling ∨ r ≠ Ok Polling) as [?|Hr]
    by (destruct r as [[]|]; auto); [by left|right].
  by apply (loop_stops_interrupted driver ws _ _ _ _ Hl).
Qed.

(** One turn whose HTTP exchange ends in a response or a transport failure
    either posts nothing and keeps [last_tags], or posts one event whose tag
    set is new and becomes [last_tags]. *)
Lemma cycle_posted_step (w : world) (self self' : RFIDReader)
    (r : result control) (t : list action) :
  http_outcome (http w) →
  cycle driver w self = (r, self', t) →
  (posts t = [] ∧ last_tags self' = last_tags self)
  ∨ (∃ rq, posts t = [rq] ∧ tags_of rq = last_tags self'
           ∧ last_tags self' ≠ last_tags self).
Proof.
  intros Hout. rewrite cycle_of_body.
  destruct (run_body_cases driver w self)
    as [(e & Hd & ->) | [(tags & Hd & Hc & ->)
       | [(tags & ev & lv & msg & Hd & Hc & Hw & _ & ->)
       | (tags & ev & e & Hd & Hc & Hw & He & ->)]]].
  - destruct e, (sigint w); intros [= <- <- <-]; by left.
  - destruct (sigint w); intros [= <- <- <-]; by left.
  - assert (list_to_set tags ≠ last_tags self) as Hne.
    { intros Heq. apply eq_sym, classify_none_same, classify_detect in Heq.
      congruence. }
    destruct (sigint w), lv; intros [= <- <- <-]; right; eexists; simpl;
      (split; [reflexivity|]); by rewrite tags_of_event_request.
  - rewrite Hw in Hout. by destruct e.
Qed.

Lemma loop_posted_changing (ws : list world) :
  Forall (λ w, http_outcome (http w)) ws →
  ∀ (self self' : RFIDReader) (r : result progress) (t : list action),
    loop driver ws self = (r, self', t) →
    changing (last_tags self) (posted_tags t).
Proof.
  induction 1 as [|w ws Hw Hws IH]; intros self self' r t.
  - rewrite loop_nil. by intros [= <- <- <-].
  - rewrite loop_cons.
    destruct (cycle driver w self) as [[c self1] t1] eqn:Hcy.
    assert (∀ t2, changing (last_tags self1) (posted_tags t2) →
                  changing (last_tags self) (posted_tags (t1 ++ t2)))
      as Hstep.
    { intros t2 H2. unfold posted_tags in *. rewrite posts_app, fmap_app.
      destruct (cycle_posted_step _ _ _ _ _ Hw Hcy)
        as [[-> <-] | (rq & -> & Ht & Hne)]; simpl; [done|].
      rewrite Ht. by split. }
    destruct c as [[]|e].
    + destruct (loop driver ws self1) as [[r2 self2] t2] eqn:Hl2.
      intros [= <- <- <-]. eapply Hstep, IH, Hl2.
    + intros [= <- <- <-]. rewrite <- (app_nil_r t1). by apply Hstep.
    + intros [= <- <- <-]. rewrite <- (app_nil_r t1). by apply Hstep.
Qed.

(** X15. In a run whose HTTP exchanges end in a response or a transport
    failure, consecutive events never carry the same tag set, and the first
    one differs from the [last_tags] the run started with: the backend is
    never sent the same set twice in a row. *)
Theorem run_posted_sets_change (ws : list world) (self : RFIDReader) :
  Forall (λ w, http_outcome (http w)) ws →
  let '(_, _, t) := run driver ws self in
  changing (last_tags self) (posted_tags t).
Proof.
  intros Hws. rewrite run_of_loop.
  destruct (loop driver ws self) as [[r self'] t] eqn:Hl.
  apply (loop_posted_changing ws Hws _ _ _ _ Hl).
Qed.

End RunInvariants.

(** ** The script as shipped *)



(** ** The further laws at work on sample turns *)

Lemma cycle_posts_iff_changed_witness :
  read_tags_hw world_refused = Ok ["A1"; "A2"]
  ∧ let '(_, _, t) :=
      cycle read_tags_hw world_refused (init default_api_url) in
    posts t ≠ []
    ↔ list_to_set ["A1"; "A2"] ≠ last_tags (init default_api_url).
Proof.
  split; [reflexivity|].
  apply (cycle_posts_iff_changed read_tags_hw world_refused
           (init default_api_url) ["A1"; "A2"]).
  reflexivity.
Defined.

Lemma cycle_reading_as_set_witness :
  (read_tags_hw world_delivered = Ok ["A1"; "A2"]
   ∧ read_tags_hw world_delivered_reordered = Ok ["A2"; "A1"; "A2"]
   ∧ (∀ x : string, x ∈ ["A1"; "A2"] ↔ x ∈ ["A2"; "A1"; "A2"])
   ∧ now world_delivered = now world_delivered_reordered
   ∧ http world_delivered = http world_delivered_reordered
   ∧ sigint world_delivered = sigint world_delivered_reordered)
  ∧ let '(r1, self1, t1) :=
      cycle read_tags_hw world_delivered (init default_api_url) in
    let '(r2, self2, t2) :=
      cycle read_tags_hw world_delivered_reordered (init default_api_url) in
    r1 = r2 ∧ self1 = self2 ∧ trace_same t1 t2.
Proof.
  assert (∀ x : string, x ∈ ["A1"; "A2"] ↔ x ∈ ["A2"; "A1"; "A2"]) as Hel
    by (intros x; rewrite !elem_of_cons, !elem_of_nil; tauto).
  split.
  - split; [reflexivity|]. split; [reflexivity|]. split; [exact Hel|].
    split; [reflexivity|]. split; reflexivity.
  - apply (cycle_reading_as_set read_tags_hw world_delivered
             world_delivered_reordered (init default_api_url)
             ["A1"; "A2"] ["A2"; "A1"; "A2"]);
      [reflexivity | reflexivity | exact Hel | reflexivity | reflexivity
      | reflexivity].
Defined.

Lemma no_resend_after_dispatch_witness :
  (read_tags_hw world_refused = Ok ["A1"; "A2"]
   ∧ read_tags_hw world_reread = Ok ["A2"; "A1"; "A2"]
   ∧ (∀ x : string, x ∈ ["A2"; "A1"; "A2"] ↔ x ∈ ["A1"; "A2"])
   ∧ detect_departure_arrival (init default_api_url)
       (list_to_set ["A1"; "A2"]) = Some "departure"
   ∧ http_outcome (http world_refused)
   ∧ sigint world_refused = false)
  ∧ let '(_, self', t) :=
      loop read_tags_hw [world_refused; world_reread]
        (init default_api_url) in
    (∃ rq, posts t = [rq] ∧ tags_of rq = list_to_set ["A1"; "A2"])
    ∧ last_tags self' = list_to_set ["A1"; "A2"].
Proof.
  assert (∀ x : string, x ∈ ["A2"; "A1"; "A2"] ↔ x ∈ ["A1"; "A2"]) as Hel
    by (intros x; rewrite !elem_of_cons, !elem_of_nil; tauto).
  split.
  - split; [reflexivity|]. split; [reflexivity|]. split; [exact Hel|].
    split; [vm_compute; reflexivity|]. split; [exact I | reflexivity].
  - apply (no_resend_after_dispatch read_tags_hw world_refused world_reread
             (init default_api_url) ["A1"; "A2"] ["A2"; "A1"; "A2"]
             "departure");
      [reflexivity | reflexivity | exact Hel | vm_compute; reflexivity
      | exact I | reflexivity].
Defined.

Lemma resend_after_unexpected_error_witness :
  (read_tags_hw world_client_crash = Ok ["A1"; "A2"]
   ∧ read_tags_hw world_reread = Ok ["A2"; "A1"; "A2"]
   ∧ (∀ x : string, x ∈ ["A2"; "A1"; "A2"] ↔ x ∈ ["A1"; "A2"])
   ∧ detect_departure_arrival (init default_api_url)
       (list_to_set ["A1"; "A2"]) = Some "departure"
   ∧ http world_client_crash
     = Raise (OtherException "unexpected keyword argument")
   ∧ sigint world_client_crash = false)
  ∧ let '(_, _, t) :=
      loop read_tags_hw [world_client_crash; world_reread]
        (init default_api_url) in
    ∃ rq1 rq2,
      posts t = [rq1; rq2]
      ∧ tags_of rq1 = list_to_set ["A1"; "A2"]
      ∧ tags_of rq2 = list_to_set ["A1"; "A2"]
      ∧ event_type_of rq1 = Some "departure"
      ∧ event_type_of rq2 = Some "departure".
Proof.
  assert (∀ x : string, x ∈ ["A2"; "A1"; "A2"] ↔ x ∈ ["A1"; "A2"]) as Hel
    by (intros x; rewrite !elem_of_cons, !elem_of_nil; tauto).
  split.
  - split; [reflexivity|]. split; [reflexivity|]. split; [exact Hel|].
    split; [vm_compute; reflexivity|]. split; reflexivity.
  - apply (resend_after_unexpected_error read_tags_hw world_client_crash
             world_reread (init default_api_url) ["A1"; "A2"]
             ["A2"; "A1"; "A2"] "departure" "unexpected keyword argument");
      [reflexivity | reflexivity | exact Hel | vm_compute; reflexivity
      | reflexivity | reflexivity].
Defined.

Lemma run_keeps_polling_witness :
  Forall (λ w, ¬ interrupted read_tags_hw w
               ∧ ¬ raises_uncaught read_tags_hw w)
    [world_refused; world_broken; world_client_crash]
  ∧ ∃ self' t,
      run read_tags_hw [world_refused; world_broken; world_client_crash]
        (init default_api_url) = (Ok Polling, self', t)
      ∧ length (sleeps t)
        = length [world_refused; world_broken; world_client_crash].
Proof.
  assert (Forall (λ w, ¬ interrupted read_tags_hw w
                       ∧ ¬ raises_uncaught read_tags_hw w)
            [world_refused; world_broken; world_client_crash]) as Hws.
  { repeat (constructor;
            [split;
             [intros [H|[H|H]]; discriminate H
             |intros (e & [H1 H2] & [H|H]); vm_compute in H; simplify_eq;
              discriminate H2]|]).
    constructor. }
  split; [exact Hws|].
  apply (run_keeps_polling read_tags_hw
           [world_refused; world_broken; world_client_crash]
           (init default_api_url)).
  exact Hws.
Defined.

Lemma run_posted_sets_change_witness :
  Forall (λ w, http_outcome (http w))
    [world_refused; world_reread; world_empty_delivered]
  ∧ let '(_, _, t) :=
      run read_tags_hw [world_refused; world_reread; world_empty_delivered]
        (init default_api_url) in
    changing (last_tags (init default_api_url)) (posted_tags t).
Proof.
  split; [repeat constructor|].
  apply (run_posted_sets_change read_tags_hw
           [world_refused; world_reread; world_empty_delivered]
           (init default_api_url)).
  repeat constructor.
Defined.

(** An exception outside the class [Exception] passes both clauses of the
    [try]: it leaves [run] at once, with no log line and no sleep. *)
Example scenario_system_exit :
  run read_tags_hw [world_exit; world_delivered] (init default_api_url)
  = (Raise (OtherBaseException "3"), init default_api_url,
     [Log INFO "Starting RFID reader..."]).
Proof. vm_compute. reflexivity. Qed.

(** The same set listed in another order gives another request body. *)
Example scenario_reordered :
  posts (cycle read_tags_hw world_delivered_reordered
           (init default_api_url)).2
  = [ {| req_url := "http://localhost:3001/api/rfid/event";
         req_json := [ ("tags", JArray ["A2"; "A1"]);
                       ("event_type", JString "departure");
                       ("timestamp", JString "2024-03-09T07:05:00.001500");
                       ("location", JString "main_door") ] |} ].
Proof. vm_compute. reflexivity. Qed.
